(** * frugal: pointer bitmaps, dead-code elimination and linking

    A shallow embedding of three pieces of the frugal runtime:
    - [internal/rt/stackmap.go]: [Bitmap], [StackMap], [StackMapBuilder];
    - the SSA pass [TDCE] (trivial dead-code elimination);
    - the encoder's [Link] / [SetLinker] pair.

    Go's [int] is [Z]; the [int32] header fields of a [StackMap] are [Z]
    with the conversion's wrap-around written out; a [byte] is a [Z]
    reduced modulo 256; a run-time panic is a value of [result]. *)

From Stdlib Require Import ZArith Lia Bool.
From stdpp Require Import base decidable list gmap strings.

Local Open Scope Z_scope.

(** ** Panics

    Go code either returns or panics.  The explicit [panic(...)] of
    [Bitmap.Set] and the run-time errors of indexing and shifting (index
    out of range, negative shift amount) are kept apart. *)

Inductive panic : Type :=
| invalid_bit_position
| runtime_error.

Inductive result (A : Type) : Type :=
| Ok (a : A)
| Panic (p : panic).

Arguments Ok {A} a.
Arguments Panic {A} p.

(** A panic aborts whatever follows it. *)
#[global] Instance result_bind : MBind result :=
  fun A B (k : A -> result B) (r : result A) =>
    match r with
    | Ok a => k a
    | Panic p => Panic p
    end.

Definition panics {A : Type} (r : result A) : Prop := exists p, r = Panic p.

(** The length of a slice, as Go's [len] returns it. *)
Definition len {A : Type} (l : list A) : Z := Z.of_nat (length l).

(** Conversions to fixed-width integers. *)
Definition uint8 (z : Z) : Z := z mod 2 ^ 8.
Definition int32 (z : Z) : Z := (z + 2 ^ 31) mod 2 ^ 32 - 2 ^ 31.

(** ** Bitmap *)

Module Bitmap.

Record t : Type := mk { N : Z; B : list Z }.

Definition empty : t := {| N := 0; B := [] |}.

(** [func (self *Bitmap) grow()] *)
Definition grow (self : t) : t :=
  if N self >=? len (B self) * 8
  then {| N := N self; B := B self ++ [0] |}
  else self.

(** [func (self *Bitmap) mark(i int, bv int)].  [i / 8] and [i % 8]
    truncate towards zero.  Indexing outside the slice and shifting by a
    negative amount are run-time errors; which of the two is reported
    when both apply is not observable here. *)
Definition mark (i bv : Z) (self : t) : result t :=
  let k := Z.quot i 8 in
  let s := Z.rem i 8 in
  if (k <? 0) || (k >=? len (B self)) then Panic runtime_error
  else if s <? 0 then Panic runtime_error
  else
    let x := nth (Z.to_nat k) (B self) 0 in
    let m := uint8 (Z.shiftl 1 s) in
    let y := if bv =? 0 then uint8 (Z.land x (Z.lnot m)) else uint8 (Z.lor x m) in
    Ok {| N := N self; B := <[Z.to_nat k := y]> (B self) |}.

(** [func (self *Bitmap) Set(i int, bv int)] *)
Definition Set_ (i bv : Z) (self : t) : result t :=
  if i >=? N self then Panic invalid_bit_position else mark i bv self.

(** [func (self *Bitmap) Append(bv int)] *)
Definition Append (bv : Z) (self : t) : result t :=
  let self := grow self in
  self ← mark (N self) bv self;
  Ok {| N := N self + 1; B := B self |}.

(** [func (self *Bitmap) AppendMany(n int, bv int)]: the loop
    [for i := 0; i < n; i++] runs [n] times, and not at all when
    [n <= 0]. *)
Fixpoint AppendMany_loop (k : nat) (bv : Z) (self : t) : result t :=
  match k with
  | O => Ok self
  | S k' => self ← Append bv self; AppendMany_loop k' bv self
  end.

Definition AppendMany (n bv : Z) (self : t) : result t :=
  AppendMany_loop (Z.to_nat n) bv self.

(** Bit [j] of the bitmap: bit [j mod 8] of byte [j / 8]. *)
Definition bit (self : t) (j : Z) : bool :=
  Z.testbit (nth (Z.to_nat (j / 8)) (B self) 0) (j mod 8).

(** The invariant of the data model: [0 <= N <= 8 * len(B)]. *)
Definition wf (self : t) : Prop := 0 <= N self <= 8 * len (B self).

(** What [Append] and [AppendMany] maintain on top of [wf]: the backing
    slice has no spare byte. *)
Definition tight (self : t) : Prop :=
  0 <= N self /\ len (B self) = (N self + 7) / 8.

(** A sequence of appending calls. *)
Inductive append_op : Type :=
| OpAppend (bv : Z)
| OpAppendMany (n bv : Z).

Definition run_op (o : append_op) (self : t) : result t :=
  match o with
  | OpAppend bv => Append bv self
  | OpAppendMany n bv => AppendMany n bv self
  end.

Fixpoint run_ops (ops : list append_op) (self : t) : result t :=
  match ops with
  | [] => Ok self
  | o :: ops' => self ← run_op o self; run_ops ops' self
  end.

Definition bits_of_op (o : append_op) : Z :=
  match o with
  | OpAppend _ => 1
  | OpAppendMany n _ => Z.max 0 n
  end.

Fixpoint bits_appended (ops : list append_op) : Z :=
  match ops with
  | [] => 0
  | o :: ops' => bits_of_op o + bits_appended ops'
  end.

Example append_9_bits :
  run_ops [OpAppendMany 8 1; OpAppend 0] empty = Ok {| N := 9; B := [255; 0] |}.
Proof. reflexivity. Qed.

Example set_clears_bit :
  Set_ 3 0 {| N := 9; B := [255; 0] |} = Ok {| N := 9; B := [247; 0] |}.
Proof. reflexivity. Qed.

Example set_past_end : Set_ 9 1 {| N := 9; B := [255; 0] |} = Panic invalid_bit_position.
Proof. reflexivity. Qed.

Example set_negative : Set_ (-1) 1 {| N := 9; B := [255; 0] |} = Panic runtime_error.
Proof. reflexivity. Qed.

(** Any call on a bitmap: an appending one or [Set]. *)
Inductive any_op : Type :=
| Appending (o : append_op)
| Setting (i bv : Z).

Definition run_any_op (o : any_op) (self : t) : result t :=
  match o with
  | Appending o => run_op o self
  | Setting i bv => Set_ i bv self
  end.

Fixpoint run_any (ops : list any_op) (self : t) : result t :=
  match ops with
  | [] => Ok self
  | o :: ops' => self ← run_any_op o self; run_any ops' self
  end.

(** No bit is set at or beyond position [N]. *)
Definition zero_padded (self : t) : Prop :=
  forall j, N self <= j -> bit self j = false.

Example set_then_append :
  run_any [Appending (OpAppendMany 3 1); Setting 1 0; Appending (OpAppend 7)] empty
  = Ok {| N := 4; B := [13] |}.
Proof. reflexivity. Qed.

(** The byte that [mark] stores for bit [s] of the byte [x]. *)
Definition marked_byte (x bv s : Z) : Z :=
  if bv =? 0
  then uint8 (Z.land x (Z.lnot (uint8 (Z.shiftl 1 s))))
  else uint8 (Z.lor x (uint8 (Z.shiftl 1 s))).

(** *** Bit-level facts *)

Lemma mask_testbit (s t : Z) :
  0 <= s < 8 -> 0 <= t ->
  Z.testbit (uint8 (Z.shiftl 1 s)) t = bool_decide (t = s).
Proof.
  intros Hs Ht. unfold uint8.
  rewrite Z.shiftl_1_l.
  rewrite Z.mod_small.
  - rewrite Z.pow2_bits_eqb by lia.
    case_bool_decide; [apply Z.eqb_eq | apply Z.eqb_neq]; lia.
  - split; [lia |]. apply Z.pow_lt_mono_r; lia.
Qed.

Lemma uint8_testbit (z t : Z) :
  0 <= t < 8 -> Z.testbit (uint8 z) t = Z.testbit z t.
Proof.
  intros Ht. unfold uint8. apply Z.mod_pow2_bits_low. lia.
Qed.

(** The byte [mark] writes: bit [s] becomes [bv != 0], the others keep
    their value. *)
Lemma marked_byte_testbit (x bv s t : Z) :
  0 <= s < 8 -> 0 <= t < 8 ->
  Z.testbit
    (if bv =? 0
     then uint8 (Z.land x (Z.lnot (uint8 (Z.shiftl 1 s))))
     else uint8 (Z.lor x (uint8 (Z.shiftl 1 s)))) t
  = if bool_decide (t = s) then negb (bv =? 0) else Z.testbit x t.
Proof.
  intros Hs Ht.
  destruct (bv =? 0); rewrite uint8_testbit by lia.
  - rewrite Z.land_spec, Z.lnot_spec, mask_testbit by lia.
    case_bool_decide; simpl; [apply andb_false_r | apply andb_true_r].
  - rewrite Z.lor_spec, mask_testbit by lia.
    case_bool_decide; simpl; [apply orb_true_r | apply orb_false_r].
Qed.

Lemma nth_insert_eq (l : list Z) (k : nat) (y : Z) :
  (k < length l)%nat -> nth k (<[k := y]> l) 0 = y.
Proof.
  intros Hk. rewrite nth_lookup, list_lookup_insert_eq by done. done.
Qed.

Lemma nth_insert_ne (l : list Z) (k k' : nat) (y : Z) :
  k <> k' -> nth k' (<[k := y]> l) 0 = nth k' l 0.
Proof.
  intros Hk. rewrite !nth_lookup, list_lookup_insert_ne by done. done.
Qed.

(** [mark] inside the backing slice: it succeeds, sets bit [i] and
    nothing else. *)
Lemma mark_ok (self : t) (i bv : Z) :
  0 <= i < 8 * len (B self) ->
  exists self',
    mark i bv self = Ok self' /\
    N self' = N self /\
    length (B self') = length (B self) /\
    bit self' i = negb (bv =? 0) /\
    (forall j, 0 <= j -> j <> i -> bit self' j = bit self j).
Proof.
  intros Hi. unfold mark, len in *.
  rewrite Z.quot_div_nonneg, Z.rem_mod_nonneg by lia.
  assert (Hm : 0 <= i mod 8 < 8) by (apply Z.mod_pos_bound; lia).
  assert (Hd : 0 <= i / 8 < Z.of_nat (length (B self))).
  { split; [apply Z.div_pos; lia | apply Z.div_lt_upper_bound; lia]. }
  destruct (Z.ltb_spec (i / 8) 0) as [? | _]; [lia |].
  destruct (Z.geb_spec (i / 8) (Z.of_nat (length (B self)))) as [? | _]; [lia |].
  destruct (Z.ltb_spec (i mod 8) 0) as [? | _]; [lia |].
  simpl. eexists. split; [reflexivity |]. simpl.
  split; [reflexivity |].
  split; [apply length_insert |].
  split.
  - unfold bit; simpl. rewrite nth_insert_eq by lia.
    rewrite marked_byte_testbit by lia.
    rewrite bool_decide_eq_true_2; done.
  - intros j Hj Hne. unfold bit; simpl.
    assert (Hjm : 0 <= j mod 8 < 8) by (apply Z.mod_pos_bound; lia).
    destruct (decide (j / 8 = i / 8)) as [Heq | Hneq].
    + rewrite Heq, nth_insert_eq by lia.
      rewrite marked_byte_testbit by lia.
      rewrite bool_decide_eq_false_2; [done |].
      intros Hmod. apply Hne.
      rewrite (Z.div_mod j 8), (Z.div_mod i 8) by lia. lia.
    + rewrite nth_insert_ne; [done |].
      assert (0 <= j / 8) by (apply Z.div_pos; lia). lia.
Qed.

(** [mark] at a negative position is a run-time error. *)
Lemma mark_negative (self : t) (i bv : Z) :
  i < 0 -> mark i bv self = Panic runtime_error.
Proof.
  intros Hi. unfold mark.
  destruct (Z.ltb_spec (Z.quot i 8) 0) as [_ | Hq]; [done |].
  simpl.
  destruct (Z.quot i 8 >=? len (B self)); [done |].
  destruct (Z.ltb_spec (Z.rem i 8) 0) as [_ | Hr]; [done |].
  exfalso.
  pose proof (Z.quot_rem i 8 ltac:(lia)) as Hqr.
  pose proof (Z.rem_nonpos i 8 ltac:(lia) ltac:(lia)) as Hr'.
  pose proof (Z.quot_opp_l i 8 ltac:(lia)) as Hopp.
  pose proof (Z.quot_pos (- i) 8 ltac:(lia) ltac:(lia)) as Hpos.
  lia.
Qed.

(** *** Growth *)

Lemma bit_grow (self : t) (j : Z) : bit (grow self) j = bit self j.
Proof.
  unfold grow, bit. destruct (N self >=? len (B self) * 8); [| done].
  simpl. rewrite !nth_lookup.
  destruct (decide (Z.to_nat (j / 8) < length (B self))%nat) as [Hlt | Hge].
  - rewrite lookup_app_l by done. done.
  - rewrite (lookup_ge_None_2 (B self)) by lia.
    rewrite lookup_app_r by lia.
    destruct (Z.to_nat (j / 8) - length (B self))%nat as [| [| n]]; done.
Qed.

Lemma grow_room (self : t) :
  wf self ->
  N (grow self) = N self /\ 0 <= N self < 8 * len (B (grow self)) /\
  len (B (grow self)) =
    (if N self >=? len (B self) * 8 then len (B self) + 1 else len (B self)).
Proof.
  unfold wf, grow, len. intros Hwf.
  destruct (Z.geb_spec (N self) (Z.of_nat (length (B self)) * 8)); simpl.
  - rewrite length_app; simpl. lia.
  - lia.
Qed.

(** [Append] on a well-formed bitmap: it succeeds, writes bit [N], keeps
    the bits below, and adds a byte exactly when the slice was full. *)
Lemma Append_ok (self : t) (bv : Z) :
  wf self ->
  exists self',
    Append bv self = Ok self' /\
    N self' = N self + 1 /\
    wf self' /\
    len (B self') =
      (if N self >=? len (B self) * 8 then len (B self) + 1 else len (B self)) /\
    bit self' (N self) = negb (bv =? 0) /\
    (forall j, 0 <= j -> j <> N self -> bit self' j = bit self j).
Proof.
  intros Hwf. unfold Append.
  destruct (grow_room self Hwf) as (HN & Hroom & Hlen).
  destruct (mark_ok (grow self) (N (grow self)) bv) as (m & Hm & HmN & HmB & Hbit & Hoth).
  { rewrite HN. done. }
  rewrite Hm. simpl. eexists. split; [reflexivity |]. simpl.
  assert (HlenB : len (B m) = len (B (grow self))) by (unfold len; lia).
  split; [lia |].
  split; [unfold wf; simpl; lia |].
  split; [lia |].
  split.
  - unfold bit in *; simpl. rewrite <- HN. exact Hbit.
  - intros j Hj Hne. rewrite <- (bit_grow self j).
    unfold bit in *; simpl. apply Hoth; lia.
Qed.

Lemma Append_tight (self self' : t) (bv : Z) :
  tight self -> Append bv self = Ok self' -> tight self'.
Proof.
  intros [HN HB] Happ.
  assert (Hwf : wf self).
  { unfold wf. split; [done |]. rewrite HB. Z.div_mod_to_equations. lia. }
  destruct (Append_ok self bv Hwf) as (s & Hs & HsN & _ & HsB & _).
  rewrite Hs in Happ. injection Happ as <-.
  unfold tight. split; [lia |].
  rewrite HsB, HsN, HB.
  destruct (Z.geb_spec (N self) ((N self + 7) / 8 * 8));
    Z.div_mod_to_equations; lia.
Qed.

Lemma tight_wf (self : t) : tight self -> wf self.
Proof.
  intros [HN HB]. unfold wf. split; [done |].
  rewrite HB. Z.div_mod_to_equations. lia.
Qed.

Lemma AppendMany_loop_ok (k : nat) (bv : Z) (self : t) :
  wf self ->
  exists self',
    AppendMany_loop k bv self = Ok self' /\
    N self' = N self + Z.of_nat k /\
    wf self' /\
    (tight self -> tight self') /\
    (forall j, N self <= j < N self' -> bit self' j = negb (bv =? 0)) /\
    (forall j, 0 <= j < N self -> bit self' j = bit self j).
Proof.
  revert self. induction k as [| k IH]; intros self Hwf.
  - exists self. simpl.
    split; [done |]. split; [lia |]. split; [done |]. split; [done |].
    split; [intros j Hj; lia | done].
  - destruct (Append_ok self bv Hwf) as (s & Hs & HsN & Hswf & _ & Hbit & Hoth).
    destruct (IH s Hswf) as (s' & Hs' & Hs'N & Hs'wf & Ht & Hnew & Hold).
    exists s'. simpl. rewrite Hs. simpl.
    split; [exact Hs' |].
    split; [lia |].
    split; [exact Hs'wf |].
    split; [intros Htight; apply Ht; eapply Append_tight; eauto |].
    destruct Hwf as [HN0 _].
    split.
    + intros j Hj. destruct (decide (j = N self)) as [-> | Hne].
      * rewrite Hold by lia. exact Hbit.
      * apply Hnew. lia.
    + intros j Hj. rewrite Hold by lia. apply Hoth; lia.
Qed.

Lemma run_op_ok (o : append_op) (self : t) :
  tight self ->
  exists self',
    run_op o self = Ok self' /\ N self' = N self + bits_of_op o /\ tight self'.
Proof.
  intros Ht. pose proof (tight_wf self Ht) as Hwf.
  destruct o as [bv | n bv]; simpl.
  - destruct (Append_ok self bv Hwf) as (s & Hs & HsN & _).
    exists s. split; [done |]. split; [done |]. eapply Append_tight; eauto.
  - destruct (AppendMany_loop_ok (Z.to_nat n) bv self Hwf) as (s & Hs & HsN & _ & Hst & _).
    exists s. split; [done |]. split; [lia |]. auto.
Qed.

Lemma run_ops_ok (ops : list append_op) (self : t) :
  tight self ->
  exists self',
    run_ops ops self = Ok self' /\ N self' = N self + bits_appended ops /\ tight self'.
Proof.
  revert self. induction ops as [| o ops IH]; intros self Ht; simpl.
  - exists self. split; [done |]. split; [lia | done].
  - destruct (run_op_ok o self Ht) as (s & Hs & HsN & Hst).
    destruct (IH s Hst) as (s' & Hs' & Hs'N & Hs't).
    exists s'. rewrite Hs. simpl. split; [done |]. split; [lia | done].
Qed.

Lemma tight_empty : tight empty.
Proof. unfold tight; simpl. split; [lia | reflexivity]. Qed.

(** *** Set *)

(** C7, as amended: on a bitmap that satisfies the invariant
    [0 <= N <= 8 * len(B)], [Set(i, bv)] fails fatally if and only if
    [i >= N] or [i < 0]; for every [0 <= i < N] it returns, bit [i] is
    then set exactly when [bv != 0], no other bit changes, and [N] and
    the length of the backing slice are what they were. *)
Theorem Set_spec (self : t) (i bv : Z) :
  wf self ->
  (panics (Set_ i bv self) <-> i >= N self \/ i < 0) /\
  (0 <= i < N self ->
   exists self',
     Set_ i bv self = Ok self' /\
     bit self' i = negb (bv =? 0) /\
     (forall j, 0 <= j -> j <> i -> bit self' j = bit self j) /\
     N self' = N self /\
     length (B self') = length (B self)).
Proof.
  intros [HN HB].
  assert (Hin : 0 <= i < N self ->
    exists self',
      Set_ i bv self = Ok self' /\
      bit self' i = negb (bv =? 0) /\
      (forall j, 0 <= j -> j <> i -> bit self' j = bit self j) /\
      N self' = N self /\
      length (B self') = length (B self)).
  { intros Hi. unfold Set_.
    destruct (Z.geb_spec i (N self)) as [? | _]; [lia |].
    destruct (mark_ok self i bv ltac:(lia)) as (s & Hs & HsN & HsB & Hbit & Hoth).
    exists s. auto. }
  split; [| exact Hin].
  split.
  - intros [p Hp].
    destruct (decide (0 <= i < N self)) as [Hi | Hi]; [| lia].
    destruct (Hin Hi) as (s & Hs & _). congruence.
  - intros Hi. unfold Set_, panics.
    destruct (Z.geb_spec i (N self)) as [_ | Hlt]; [eauto |].
    rewrite mark_negative by lia. eauto.
Qed.

(** [Set_spec] at bit 3 of a nine-bit bitmap. *)
Lemma Set_spec_witness :
  wf {| N := 9; B := [255; 0] |} /\
  (panics (Set_ 3 0 {| N := 9; B := [255; 0] |}) <-> 3 >= 9 \/ 3 < 0) /\
  (0 <= 3 < 9 ->
   exists self',
     Set_ 3 0 {| N := 9; B := [255; 0] |} = Ok self' /\
     bit self' 3 = negb (0 =? 0) /\
     (forall j, 0 <= j -> j <> 3 -> bit self' j = bit {| N := 9; B := [255; 0] |} j) /\
     N self' = 9 /\
     length (B self') = 2%nat).
Proof.
  assert (Hwf : wf {| N := 9; B := [255; 0] |}) by (unfold wf, len; simpl; lia).
  split; [exact Hwf |].
  exact (Set_spec {| N := 9; B := [255; 0] |} 3 0 Hwf).
Defined.

(** C7 as stated fails below zero: on the one-bit bitmap that
    [Append(0)] builds from the empty one, [Set(-1, 1)] fails although
    [-1 < N]. *)
Lemma Set_negative_position :
  Append 0 empty = Ok {| N := 1; B := [0] |} /\
  wf {| N := 1; B := [0] |} /\
  ~ (panics (Set_ (-1) 1 {| N := 1; B := [0] |}) <-> -1 >= N {| N := 1; B := [0] |}).
Proof.
  split; [reflexivity |].
  split; [unfold wf, len; simpl; lia |].
  intros [Hfail _]. simpl in Hfail.
  assert (Hp : panics (Set_ (-1) 1 {| N := 1; B := [0] |})).
  { exists runtime_error. reflexivity. }
  specialize (Hfail Hp). lia.
Qed.

(** *** Append *)

(** C8: starting from the empty bitmap, any sequence of [Append] and
    [AppendMany] calls returns; if it appends [m] bits in total then
    [N = m] and the backing slice holds exactly [ceil(m / 8)] bytes, so
    [8k+1] bits take [k+1] bytes; and [N <= 8 * len(B)] holds at the end
    and after every call on the way. *)
Theorem Append_growth (ops : list append_op) :
  exists self,
    run_ops ops empty = Ok self /\
    N self = bits_appended ops /\
    len (B self) = (bits_appended ops + 7) / 8 /\
    (forall k, 0 <= k -> bits_appended ops = 8 * k + 1 -> len (B self) = k + 1) /\
    N self <= 8 * len (B self) /\
    (forall before after, ops = before ++ after ->
       exists mid, run_ops before empty = Ok mid /\ N mid <= 8 * len (B mid)).
Proof.
  destruct (run_ops_ok ops empty tight_empty) as (s & Hs & HsN & Hst).
  exists s. simpl in HsN.
  pose proof (tight_wf s Hst) as [_ Hwf].
  destruct Hst as [_ HsB].
  split; [done |]. split; [done |].
  split; [rewrite HsB, HsN; done |].
  split.
  { intros k Hk Hm. rewrite HsB, HsN, Hm. Z.div_mod_to_equations. lia. }
  split; [done |].
  intros before after _.
  destruct (run_ops_ok before empty tight_empty) as (m & Hm & _ & Hmt).
  exists m. split; [done |]. apply (tight_wf m Hmt).
Qed.

Example Append_growth_17 :
  AppendMany 17 1 empty = Ok {| N := 17; B := [255; 255; 1] |}.
Proof. vm_compute. reflexivity. Qed.

(** *** Calls outside the invariant *)

Lemma mark_beyond (self : t) (i bv : Z) :
  8 * len (B self) <= i -> mark i bv self = Panic runtime_error.
Proof.
  intros Hi. unfold mark, len in *.
  assert (H0 : 0 <= i) by lia.
  rewrite Z.quot_div_nonneg by lia.
  assert (Hd : Z.of_nat (length (B self)) <= i / 8)
    by (apply Z.div_le_lower_bound; lia).
  destruct (Z.ltb_spec (i / 8) 0) as [? | _]; [done |].
  destruct (Z.geb_spec (i / 8) (Z.of_nat (length (B self)))) as [_ | ?]; [done | lia].
Qed.

Lemma mark_panics_iff (self : t) (i bv : Z) :
  mark i bv self = Panic runtime_error <-> i < 0 \/ 8 * len (B self) <= i.
Proof.
  split.
  - intros Hp.
    destruct (decide (0 <= i < 8 * len (B self))) as [Hi | Hi]; [| lia].
    destruct (mark_ok self i bv Hi) as (s & Hs & _). congruence.
  - intros [Hi | Hi]; [by apply mark_negative | by apply mark_beyond].
Qed.

Lemma mark_panic_kind (self : t) (i bv : Z) (p : panic) :
  mark i bv self = Panic p -> p = runtime_error.
Proof.
  unfold mark.
  destruct (_ || _); [congruence |].
  destruct (_ <? _); congruence.
Qed.

(** X1: [mark(i, bv)] fails with a run-time error if and only if [i] is
    negative or not below [8 * len(B)]; otherwise it returns, bit [i] is
    then set exactly when [bv != 0], every other bit is what it was, and
    [N] and the length of the backing slice are unchanged. *)
Theorem mark_spec (self : t) (i bv : Z) :
  (panics (mark i bv self) <-> i < 0 \/ 8 * len (B self) <= i) /\
  (forall p, mark i bv self = Panic p -> p = runtime_error) /\
  (0 <= i < 8 * len (B self) ->
   exists self',
     mark i bv self = Ok self' /\
     N self' = N self /\
     length (B self') = length (B self) /\
     bit self' i = negb (bv =? 0) /\
     (forall j, 0 <= j -> j <> i -> bit self' j = bit self j)).
Proof.
  split; [| split].
  - rewrite <- (mark_panics_iff self i bv). split.
    + intros [p Hp]. by rewrite (mark_panic_kind _ _ _ _ Hp) in Hp.
    + intros Hp. by exists runtime_error.
  - apply mark_panic_kind.
  - apply mark_ok.
Qed.

(** X2: on any bitmap, well-formed or not, [Set(i, bv)] fails with its
    own panic exactly when [i >= N], fails with a run-time error exactly
    when [i < N] and [i] is negative or not below [8 * len(B)], and
    returns exactly when [0 <= i < N] and [i < 8 * len(B)]. *)
Theorem Set_outcomes (self : t) (i bv : Z) :
  (Set_ i bv self = Panic invalid_bit_position <-> N self <= i) /\
  (Set_ i bv self = Panic runtime_error <->
     i < N self /\ (i < 0 \/ 8 * len (B self) <= i)) /\
  ((exists self', Set_ i bv self = Ok self') <->
     i < N self /\ 0 <= i < 8 * len (B self)).
Proof.
  unfold Set_.
  destruct (Z.geb_spec i (N self)) as [Hge | Hlt].
  - split; [split; [lia | done] |].
    split; [split; [done | lia] |].
    split; [intros [s Hs]; done | lia].
  - split.
    { split; [| lia]. intros Hp. by apply mark_panic_kind in Hp. }
    split.
    { rewrite mark_panics_iff. split; [auto | tauto]. }
    split.
    + intros [s Hs].
      destruct (decide (0 <= i < 8 * len (B self))) as [Hi | Hi]; [done |].
      rewrite (proj2 (mark_panics_iff self i bv)) in Hs by lia. done.
    + intros [_ Hi]. destruct (mark_ok self i bv Hi) as (s & Hs & _). eauto.
Qed.

(** X3: on any bitmap [Append(bv)] fails (with a run-time error) if and
    only if [N] is negative or at least [8 * (len(B) + 1)]: [grow] adds
    one byte at most.  When it returns, [N] has grown by one and the
    slice by one byte if [N >= 8 * len(B)], by none otherwise. *)
Theorem Append_outcomes (self : t) (bv : Z) :
  (panics (Append bv self) <-> N self < 0 \/ 8 * (len (B self) + 1) <= N self) /\
  (forall p, Append bv self = Panic p -> p = runtime_error) /\
  (forall self', Append bv self = Ok self' ->
     N self' = N self + 1 /\
     len (B self') =
       (if N self >=? len (B self) * 8 then len (B self) + 1 else len (B self))).
Proof.
  unfold Append, grow.
  assert (Hlen1 : len (B self ++ [0]) = len (B self) + 1).
  { unfold len. rewrite length_app. simpl. lia. }
  destruct (Z.geb_spec (N self) (len (B self) * 8)) as [Hge | Hlt]; simpl.
  - destruct (decide (N self < 8 * (len (B self) + 1))) as [Hin | Hout].
    + destruct (mark_ok {| N := N self; B := B self ++ [0] |} (N self) bv)
        as (s & Hs & HsN & HsB & _).
      { simpl. rewrite Hlen1. unfold len in *. lia. }
      rewrite Hs. simpl.
      split; [split; [intros [p Hp]; done | unfold len in *; lia] |].
      split; [done |].
      intros s' Hs'. injection Hs' as <-. simpl in *.
      unfold len in *. rewrite length_app in HsB. simpl in HsB. lia.
    + rewrite mark_beyond by (simpl; rewrite Hlen1; lia). simpl.
      split; [split; [lia | intros _; by exists runtime_error] |].
      split; [intros p Hp; by injection Hp |]. done.
  - destruct (decide (0 <= N self)) as [Hin | Hout].
    + destruct (mark_ok self (N self) bv ltac:(lia)) as (s & Hs & HsN & HsB & _).
      rewrite Hs. simpl.
      split; [split; [intros [p Hp]; done | unfold len in *; lia] |].
      split; [done |].
      intros s' Hs'. injection Hs' as <-. simpl. unfold len. lia.
    + rewrite mark_negative by lia. simpl.
      split; [split; [lia | intros _; by exists runtime_error] |].
      split; [intros p Hp; by injection Hp |]. done.
Qed.

(** *** More on Append, AppendMany and Set *)

(** X4: on a bitmap that satisfies the invariant, [Append(bv)] returns a
    bitmap that satisfies it again, with [N] one larger, bit [N] of the
    old count set exactly when [bv != 0], every other bit as it was, and
    one more byte when the slice was full ([N >= 8 * len(B)]), none
    otherwise. *)
Theorem Append_writes_bit (self : t) (bv : Z) :
  wf self ->
  exists self',
    Append bv self = Ok self' /\
    N self' = N self + 1 /\
    wf self' /\
    len (B self') =
      (if N self >=? len (B self) * 8 then len (B self) + 1 else len (B self)) /\
    bit self' (N self) = negb (bv =? 0) /\
    (forall j, 0 <= j -> j <> N self -> bit self' j = bit self j).
Proof. apply Append_ok. Qed.

(** [Append_writes_bit] on a bitmap of eight bits in one byte. *)
Lemma Append_writes_bit_witness :
  wf {| N := 8; B := [170] |} /\
  exists self',
    Append 5 {| N := 8; B := [170] |} = Ok self' /\
    N self' = 8 + 1 /\
    wf self' /\
    len (B self') = (if 8 >=? len [170] * 8 then len [170] + 1 else len [170]) /\
    bit self' 8 = negb (5 =? 0) /\
    (forall j, 0 <= j -> j <> 8 -> bit self' j = bit {| N := 8; B := [170] |} j).
Proof.
  assert (Hwf : wf {| N := 8; B := [170] |}) by (unfold wf, len; simpl; lia).
  split; [exact Hwf |].
  exact (Append_writes_bit {| N := 8; B := [170] |} 5 Hwf).
Defined.

(** X5: [AppendMany(n, bv)] with [n <= 0] returns the bitmap as it is.
    On a bitmap that satisfies the invariant and with [n >= 0] it
    returns, [N] grows by [n], the [n] new bits are all set exactly when
    [bv != 0], and the bits below the old [N] are what they were. *)
Theorem AppendMany_spec (self : t) (n bv : Z) :
  wf self ->
  (n <= 0 -> AppendMany n bv self = Ok self) /\
  (0 <= n ->
   exists self',
     AppendMany n bv self = Ok self' /\
     N self' = N self + n /\
     wf self' /\
     (forall j, N self <= j < N self + n -> bit self' j = negb (bv =? 0)) /\
     (forall j, 0 <= j < N self -> bit self' j = bit self j)).
Proof.
  intros Hwf. split.
  - intros Hn. unfold AppendMany.
    replace (Z.to_nat n) with O by lia. reflexivity.
  - intros Hn. unfold AppendMany.
    destruct (AppendMany_loop_ok (Z.to_nat n) bv self Hwf)
      as (s & Hs & HsN & Hswf & _ & Hnew & Hold).
    exists s. split; [done |]. split; [lia |]. split; [done |].
    split; [| done]. intros j Hj. apply Hnew. lia.
Qed.

(** [AppendMany_spec] for eleven zero bits after three one bits. *)
Lemma AppendMany_spec_witness :
  wf {| N := 3; B := [7] |} /\
  (-2 <= 0 -> AppendMany (-2) 1 {| N := 3; B := [7] |} = Ok {| N := 3; B := [7] |}) /\
  (0 <= 11 ->
   exists self',
     AppendMany 11 0 {| N := 3; B := [7] |} = Ok self' /\
     N self' = 3 + 11 /\
     wf self' /\
     (forall j, 3 <= j < 3 + 11 -> bit self' j = negb (0 =? 0)) /\
     (forall j, 0 <= j < 3 -> bit self' j = bit {| N := 3; B := [7] |} j)).
Proof.
  assert (Hwf : wf {| N := 3; B := [7] |}) by (unfold wf, len; simpl; lia).
  split; [exact Hwf |].
  split.
  - exact (proj1 (AppendMany_spec {| N := 3; B := [7] |} (-2) 1 Hwf)).
  - exact (proj2 (AppendMany_spec {| N := 3; B := [7] |} 11 0 Hwf)).
Defined.

Lemma AppendMany_loop_add (k k' : nat) (bv : Z) (self : t) :
  AppendMany_loop (k + k') bv self
  = (self ← AppendMany_loop k bv self; AppendMany_loop k' bv self).
Proof.
  revert self. induction k as [| k IH]; intros self; simpl; [done |].
  destruct (Append bv self) as [s | p]; simpl; [apply IH | done].
Qed.

(** X6: for [m, n >= 0], [AppendMany(m + n, bv)] does what
    [AppendMany(m, bv)] followed by [AppendMany(n, bv)] does, panics
    included; and [AppendMany(1, bv)] is [Append(bv)]. *)
Theorem AppendMany_add (self : t) (m n bv : Z) :
  0 <= m -> 0 <= n ->
  AppendMany (m + n) bv self
  = (self ← AppendMany m bv self; AppendMany n bv self) /\
  AppendMany 1 bv self = Append bv self.
Proof.
  intros Hm Hn. split.
  - unfold AppendMany. rewrite Z2Nat.inj_add by done. apply AppendMany_loop_add.
  - unfold AppendMany. simpl. by destruct (Append bv self).
Qed.

(** [AppendMany_add] for three and six bits on the empty bitmap. *)
Lemma AppendMany_add_witness :
  AppendMany (3 + 6) 1 empty
  = (self ← AppendMany 3 1 empty; AppendMany 6 1 self) /\
  AppendMany 1 1 empty = Append 1 empty.
Proof.
  apply (AppendMany_add empty 3 6 1); lia.
Defined.

Lemma uint8_testbit_high (z t : Z) : 8 <= t -> Z.testbit (uint8 z) t = false.
Proof.
  intros Ht. unfold uint8. apply Z.mod_pow2_bits_high. lia.
Qed.

Lemma marked_byte_bits (x bv s t : Z) :
  0 <= s < 8 -> 0 <= t ->
  Z.testbit (marked_byte x bv s) t
  = if bool_decide (t < 8)
    then if bool_decide (t = s) then negb (bv =? 0) else Z.testbit x t
    else false.
Proof.
  intros Hs Ht. case_bool_decide as Ht8.
  - apply marked_byte_testbit; lia.
  - unfold marked_byte. destruct (bv =? 0); apply uint8_testbit_high; lia.
Qed.

(** Marking the same bit again forgets the first mark. *)
Lemma marked_byte_twice (x bv bv' s : Z) :
  0 <= s < 8 -> marked_byte (marked_byte x bv s) bv' s = marked_byte x bv' s.
Proof.
  intros Hs. apply Z.bits_inj'. intros t Ht.
  rewrite !marked_byte_bits by lia.
  repeat case_bool_decide; done.
Qed.

Lemma mark_in_range (self : t) (i bv : Z) :
  0 <= i < 8 * len (B self) ->
  mark i bv self
  = Ok {| N := N self;
          B := <[Z.to_nat (i / 8) :=
                   marked_byte (nth (Z.to_nat (i / 8)) (B self) 0) bv (i mod 8)]>
                 (B self) |}.
Proof.
  intros Hi. unfold mark, len in *.
  rewrite Z.quot_div_nonneg, Z.rem_mod_nonneg by lia.
  assert (Hm : 0 <= i mod 8 < 8) by (apply Z.mod_pos_bound; lia).
  assert (Hd : 0 <= i / 8 < Z.of_nat (length (B self))).
  { split; [apply Z.div_pos; lia | apply Z.div_lt_upper_bound; lia]. }
  destruct (Z.ltb_spec (i / 8) 0) as [? | _]; [lia |].
  destruct (Z.geb_spec (i / 8) (Z.of_nat (length (B self)))) as [? | _]; [lia |].
  destruct (Z.ltb_spec (i mod 8) 0) as [? | _]; [lia |].
  reflexivity.
Qed.

(** X7: the last [Set] at a position wins.  [Set(i, bv)] followed by
    [Set(i, bv')] leaves exactly the bitmap, or raises exactly the
    panic, that [Set(i, bv')] alone does; so setting a bit twice to the
    same value is setting it once. *)
Theorem Set_overwrites (self : t) (i bv bv' : Z) :
  (self ← Set_ i bv self; Set_ i bv' self) = Set_ i bv' self.
Proof.
  unfold Set_.
  destruct (Z.geb_spec i (N self)) as [Hge | Hlt]; [done |].
  destruct (decide (0 <= i < 8 * len (B self))) as [Hi | Hi].
  - rewrite (mark_in_range self i bv Hi). simpl.
    destruct (Z.geb_spec i (N self)) as [? | _]; [lia |].
    assert (Hm : 0 <= i mod 8 < 8) by (apply Z.mod_pos_bound; lia).
    assert (Hd : 0 <= i / 8 < len (B self)).
    { unfold len in *.
      split; [apply Z.div_pos; lia | apply Z.div_lt_upper_bound; lia]. }
    rewrite !mark_in_range by (simpl; unfold len in *; rewrite ?length_insert; lia).
    simpl. f_equal. f_equal.
    rewrite nth_insert_eq by (unfold len in *; lia).
    rewrite marked_byte_twice by done.
    apply list_insert_insert_eq.
  - rewrite !(proj2 (mark_panics_iff self i _)) by lia. done.
Qed.

(** *** What every bitmap built from the empty one satisfies *)

Lemma Set_in_range (self self' : t) (i bv : Z) :
  wf self -> Set_ i bv self = Ok self' ->
  0 <= i < N self /\
  N self' = N self /\ length (B self') = length (B self) /\
  (forall j, 0 <= j -> j <> i -> bit self' j = bit self j).
Proof.
  intros [HN HB] Hs. unfold Set_ in Hs.
  destruct (Z.geb_spec i (N self)) as [? | Hlt]; [done |].
  destruct (decide (0 <= i)) as [Hi | Hi].
  - destruct (mark_ok self i bv ltac:(lia)) as (s & Hm & HsN & HsB & _ & Hoth).
    rewrite Hm in Hs. injection Hs as <-. split; [lia |]. auto.
  - rewrite mark_negative in Hs by lia. done.
Qed.

Lemma run_any_op_inv (o : any_op) (self self' : t) :
  tight self -> zero_padded self -> run_any_op o self = Ok self' ->
  tight self' /\ zero_padded self'.
Proof.
  intros Ht Hz Hrun. pose proof (tight_wf self Ht) as Hwf.
  destruct o as [[bv | n bv] | i bv]; simpl in Hrun.
  - destruct (Append_ok self bv Hwf) as (s & Hs & HsN & _ & _ & _ & Hoth).
    rewrite Hs in Hrun. injection Hrun as <-.
    split; [eapply Append_tight; eauto |].
    intros j Hj. destruct Hwf as [HN0 _].
    rewrite Hoth by lia. apply Hz. lia.
  - unfold AppendMany in Hrun.
    destruct (AppendMany_loop_ok (Z.to_nat n) bv self Hwf)
      as (s & Hs & HsN & Hswf & Hst & _ & _).
    rewrite Hs in Hrun. injection Hrun as <-.
    split; [auto |].
    clear Hst Hswf HsN. revert self s Ht Hz Hwf Hs.
    induction (Z.to_nat n) as [| k IH]; intros self s Ht Hz Hwf Hs; simpl in Hs.
    + by injection Hs as <-.
    + destruct (Append_ok self bv Hwf) as (s1 & Hs1 & Hs1N & Hs1wf & _ & _ & Hoth).
      rewrite Hs1 in Hs. simpl in Hs.
      apply (IH s1 s); [eapply Append_tight; eauto | | done | done].
      intros j Hj. destruct Hwf as [HN0 _].
      rewrite Hoth by lia. apply Hz. lia.
  - destruct (Set_in_range self self' i bv Hwf Hrun) as (Hi & HN & HB & Hoth).
    destruct Ht as [HN0 HlenB].
    split.
    + unfold tight, len in *. rewrite HN, HB. done.
    + intros j Hj. rewrite Hoth by lia. apply Hz. lia.
Qed.

(** X8: every bitmap that a sequence of [Append], [AppendMany] and
    [Set] calls builds from the empty one (none of them failing)
    satisfies [0 <= N <= 8 * len(B)], has exactly [ceil(N / 8)] bytes,
    and has no bit set at or beyond position [N]: the unused bits of the
    last byte are zero. *)
Theorem reachable_invariant (ops : list any_op) (self : t) :
  run_any ops empty = Ok self ->
  wf self /\ len (B self) = (N self + 7) / 8 /\ zero_padded self.
Proof.
  assert (Hgen : forall ops s s',
    tight s -> zero_padded s -> run_any ops s = Ok s' -> tight s' /\ zero_padded s').
  { clear. induction ops as [| o ops IH]; intros s s' Ht Hz Hrun; simpl in Hrun.
    - by injection Hrun as <-.
    - destruct (run_any_op o s) as [s1 | p] eqn:Ho; [| done]. simpl in Hrun.
      destruct (run_any_op_inv o s s1 Ht Hz Ho) as [Ht1 Hz1].
      exact (IH s1 s' Ht1 Hz1 Hrun). }
  intros Hrun.
  destruct (Hgen ops empty self tight_empty) as [Ht Hz]; [| done |].
  - intros j Hj. unfold bit. simpl.
    destruct (Z.to_nat (j / 8)); simpl; apply Z.testbit_0_l.
  - split; [by apply tight_wf |]. split; [apply Ht | done].
Qed.

(** [reachable_invariant] after three appended bits, a [Set] and one
    more [Append]. *)
Lemma reachable_invariant_witness :
  run_any [Appending (OpAppendMany 3 1); Setting 1 0; Appending (OpAppend 7)] empty
  = Ok {| N := 4; B := [13] |} /\
  wf {| N := 4; B := [13] |} /\
  len (B {| N := 4; B := [13] |}) = (N {| N := 4; B := [13] |} + 7) / 8 /\
  zero_padded {| N := 4; B := [13] |}.
Proof.
  split; [reflexivity |].
  exact (reachable_invariant
           [Appending (OpAppendMany 3 1); Setting 1 0; Appending (OpAppend 7)]
           {| N := 4; B := [13] |} eq_refl).
Defined.

(** One appending call on a bitmap with no spare byte and no stray bit:
    where the new bits go and what stays. *)
Lemma run_op_bits (o : append_op) (self : t) :
  tight self -> zero_padded self ->
  exists self',
    run_op o self = Ok self' /\
    N self' = N self + bits_of_op o /\
    tight self' /\ zero_padded self' /\
    (forall j, N self <= j < N self' ->
       bit self' j = negb (match o with OpAppend bv | OpAppendMany _ bv => bv end =? 0)) /\
    (forall j, 0 <= j < N self -> bit self' j = bit self j).
Proof.
  intros Ht Hz. pose proof (tight_wf self Ht) as Hwf.
  destruct (run_op_ok o self Ht) as (s & Hs & HsN & Hst).
  destruct (run_any_op_inv (Appending o) self s Ht Hz Hs) as [_ Hsz].
  exists s. split; [done |]. split; [done |]. split; [done |]. split; [done |].
  destruct o as [bv | n bv]; simpl in *.
  - destruct (Append_ok self bv Hwf) as (s1 & Hs1 & _ & _ & _ & Hbit & Hoth).
    rewrite Hs1 in Hs. injection Hs as <-.
    split.
    + intros j Hj. replace j with (N self) by lia. done.
    + intros j Hj. apply Hoth; lia.
  - unfold AppendMany in Hs.
    destruct (AppendMany_loop_ok (Z.to_nat n) bv self Hwf)
      as (s1 & Hs1 & _ & _ & _ & Hnew & Hold).
    rewrite Hs1 in Hs. injection Hs as <-. done.
Qed.

End Bitmap.

(** ** StackMap and StackMapBuilder *)

Module StackMap.

(** [type StackMap struct { N int32; L int32; B [1]byte }]: the header
    ([N] bitmaps of [L] bits each) and the bytes that follow it. *)
Record t : Type := mk { N : Z; L : Z; B : list Z }.

(** Packed bit [j] of the stack map. *)
Definition bit (self : t) (j : Z) : bool :=
  Z.testbit (nth (Z.to_nat (j / 8)) (B self) 0) (j mod 8).

(** [_stackMapCache = make(map[*StackMap]struct{})]: the stack maps
    pinned so far.  A pointer is the address it holds, which is also
    what [uintptr(unsafe.Pointer(self))] is; [_stackMapLock] lets one
    insertion happen at a time, and the calls are taken in that order. *)

(** [func (self *StackMap) freeze()]: [_stackMapCache[self] = struct{}{}]. *)
Definition freeze (self : Z) (cache : gset Z) : gset Z := {[ self ]} ∪ cache.

(** [func (self *StackMap) Pin() uintptr]: the handle returned and the
    cache afterwards. *)
Definition Pin (self : Z) (cache : gset Z) : Z * gset Z :=
  (self, freeze self cache).

(** [Pin] on each of [ps], in order. *)
Fixpoint Pin_each (ps : list Z) (cache : gset Z) : list Z * gset Z :=
  match ps with
  | [] => ([], cache)
  | p :: ps' =>
      let '(h, cache) := Pin p cache in
      let '(hs, cache) := Pin_each ps' cache in
      (h :: hs, cache)
  end.

(** X10: after any sequence of [Pin] calls the cache holds what it held
    before and every stack map pinned since, and nothing else; nothing is
    ever taken out.  The handles are the addresses of the pinned maps, in
    order, and pinning a map that is in the cache leaves the cache as it
    is. *)
Theorem Pin_retains (ps : list Z) (cache : gset Z) :
  fst (Pin_each ps cache) = ps /\
  (forall q, q ∈ snd (Pin_each ps cache) <-> q ∈ cache \/ q ∈ ps) /\
  cache ⊆ snd (Pin_each ps cache) /\
  (forall p, p ∈ cache -> snd (Pin p cache) = cache).
Proof.
  assert (Hgen : forall ps cache,
    fst (Pin_each ps cache) = ps /\
    (forall q, q ∈ snd (Pin_each ps cache) <-> q ∈ cache \/ q ∈ ps)).
  { clear. induction ps as [| p ps IH]; intros cache; simpl.
    - split; [done |]. intros q. rewrite elem_of_nil. tauto.
    - destruct (IH (freeze p cache)) as [Hh Hc].
      destruct (Pin_each ps (freeze p cache)) as [hs c']; simpl in *.
      split; [by rewrite Hh |].
      intros q. rewrite Hc. unfold freeze.
      rewrite elem_of_union, elem_of_singleton, elem_of_cons. tauto. }
  destruct (Hgen ps cache) as [Hh Hc].
  split; [done |]. split; [done |].
  split.
  - intros q Hq. apply Hc. by left.
  - intros p Hp. unfold Pin, freeze. simpl.
    apply set_eq. intros q. rewrite elem_of_union, elem_of_singleton.
    split; [intros [-> | Hq]; done | auto].
Qed.

End StackMap.

Module StackMapBuilder.

(** [type StackMapBuilder struct { b Bitmap }] *)
Record t : Type := mk { b : Bitmap.t }.

(** The zero value of the struct: a builder nothing was added to. *)
Definition fresh : t := {| b := Bitmap.empty |}.

(** [func (self *StackMapBuilder) Build() (p *StackMap)]: the block that
    [mallocgc] returns gets [N = 1], [L = int32(self.b.N)], and the
    [len(self.b.B)] bytes of the bitmap copied behind the header. *)
Definition Build (self : t) : StackMap.t :=
  {| StackMap.N := 1;
     StackMap.L := int32 (Bitmap.N (b self));
     StackMap.B := Bitmap.B (b self) |}.

(** [func (self *StackMapBuilder) AddField(ptr bool)] *)
Definition AddField (ptr : bool) (self : t) : result t :=
  if ptr
  then b' ← Bitmap.Append 1 (b self); Ok {| b := b' |}
  else b' ← Bitmap.Append 0 (b self); Ok {| b := b' |}.

(** [func (self *StackMapBuilder) AddFields(n int, ptr bool)] *)
Definition AddFields (n : Z) (ptr : bool) (self : t) : result t :=
  if ptr
  then b' ← Bitmap.AppendMany n 1 (b self); Ok {| b := b' |}
  else b' ← Bitmap.AppendMany n 0 (b self); Ok {| b := b' |}.

(** One [AddField] call per element, in order. *)
Fixpoint AddField_each (bs : list bool) (self : t) : result t :=
  match bs with
  | [] => Ok self
  | ptr :: bs' => self ← AddField ptr self; AddField_each bs' self
  end.

(** Any mix of the two calls. *)
Inductive call : Type :=
| CallAddField (ptr : bool)
| CallAddFields (n : Z) (ptr : bool).

Definition run_call (c : call) (self : t) : result t :=
  match c with
  | CallAddField ptr => AddField ptr self
  | CallAddFields n ptr => AddFields n ptr self
  end.

Fixpoint run_calls (cs : list call) (self : t) : result t :=
  match cs with
  | [] => Ok self
  | c :: cs' => self ← run_call c self; run_calls cs' self
  end.

(** The bits a call describes: one, or [n] (none when [n <= 0]). *)
Definition words_of_call (c : call) : Z :=
  match c with
  | CallAddField _ => 1
  | CallAddFields n _ => Z.max 0 n
  end.

Fixpoint words_described (cs : list call) : Z :=
  match cs with
  | [] => 0
  | c :: cs' => words_of_call c + words_described cs'
  end.

Example build_three_fields :
  (self ← AddField_each [true; false; true] fresh; Ok (Build self))
  = Ok {| StackMap.N := 1; StackMap.L := 3; StackMap.B := [5] |}.
Proof. reflexivity. Qed.

Example build_add_fields :
  (self ← run_calls [CallAddFields 3 true] fresh; Ok (Build self))
  = Ok {| StackMap.N := 1; StackMap.L := 3; StackMap.B := [7] |}.
Proof. reflexivity. Qed.

(** The pointer flags a call describes, in order, and those of a
    sequence of calls. *)
Definition flags_of_call (c : call) : list bool :=
  match c with
  | CallAddField ptr => [ptr]
  | CallAddFields n ptr => replicate (Z.to_nat n) ptr
  end.

Definition flags_described (cs : list call) : list bool :=
  concat (map flags_of_call cs).

(** The bitmap call behind a builder call. *)
Definition op_of_call (c : call) : Bitmap.append_op :=
  match c with
  | CallAddField ptr => Bitmap.OpAppend (if ptr then 1 else 0)
  | CallAddFields n ptr => Bitmap.OpAppendMany n (if ptr then 1 else 0)
  end.

Lemma int32_small (z : Z) : - 2 ^ 31 <= z < 2 ^ 31 -> int32 z = z.
Proof.
  intros Hz. unfold int32. rewrite Z.mod_small; lia.
Qed.

Lemma AddField_ok (ptr : bool) (self : t) :
  Bitmap.wf (b self) ->
  exists self',
    AddField ptr self = Ok self' /\
    Bitmap.N (b self') = Bitmap.N (b self) + 1 /\
    Bitmap.wf (b self') /\
    Bitmap.bit (b self') (Bitmap.N (b self)) = ptr /\
    (forall j, 0 <= j -> j <> Bitmap.N (b self) ->
       Bitmap.bit (b self') j = Bitmap.bit (b self) j).
Proof.
  intros Hwf. unfold AddField.
  destruct ptr.
  - destruct (Bitmap.Append_ok (b self) 1 Hwf) as (s & Hs & HN & Hswf & _ & Hbit & Hoth).
    rewrite Hs. simpl. eexists. split; [reflexivity |]. simpl. auto.
  - destruct (Bitmap.Append_ok (b self) 0 Hwf) as (s & Hs & HN & Hswf & _ & Hbit & Hoth).
    rewrite Hs. simpl. eexists. split; [reflexivity |]. simpl. auto.
Qed.

Lemma AddField_each_ok (bs : list bool) (self : t) :
  Bitmap.wf (b self) ->
  exists self',
    AddField_each bs self = Ok self' /\
    Bitmap.N (b self') = Bitmap.N (b self) + len bs /\
    Bitmap.wf (b self') /\
    (forall (i : nat) (ptr : bool), bs !! i = Some ptr ->
       Bitmap.bit (b self') (Bitmap.N (b self) + Z.of_nat i) = ptr) /\
    (forall j, 0 <= j < Bitmap.N (b self) ->
       Bitmap.bit (b self') j = Bitmap.bit (b self) j).
Proof.
  revert self. induction bs as [| ptr bs IH]; intros self Hwf.
  - exists self. simpl. unfold len; simpl.
    split; [done |]. split; [lia |]. split; [done |].
    split; [intros i p Hi; done | done].
  - destruct (AddField_ok ptr self Hwf) as (s & Hs & HsN & Hswf & Hbit & Hoth).
    destruct (IH s Hswf) as (s' & Hs' & Hs'N & Hs'wf & Hnew & Hold).
    exists s'. simpl. rewrite Hs. simpl.
    destruct Hwf as [HN0 _].
    split; [done |].
    split; [unfold len in *; simpl; lia |].
    split; [done |].
    split.
    + intros [| i] p Hi; simpl in Hi.
      * injection Hi as <-. rewrite Z.add_0_r, Hold by lia. exact Hbit.
      * specialize (Hnew i p Hi). rewrite HsN in Hnew.
        replace (Bitmap.N (b self) + Z.of_nat (S i))
          with (Bitmap.N (b self) + 1 + Z.of_nat i) by lia.
        exact Hnew.
    + intros j Hj. rewrite Hold by lia. apply Hoth; lia.
Qed.

Lemma run_call_ok (c : call) (self : t) :
  Bitmap.wf (b self) ->
  exists self',
    run_call c self = Ok self' /\
    Bitmap.N (b self') = Bitmap.N (b self) + words_of_call c /\
    Bitmap.wf (b self').
Proof.
  intros Hwf. destruct c as [ptr | n ptr]; simpl.
  - destruct (AddField_ok ptr self Hwf) as (s & Hs & HsN & Hswf & _).
    exists s. auto.
  - unfold AddFields, Bitmap.AppendMany. destruct ptr.
    + destruct (Bitmap.AppendMany_loop_ok (Z.to_nat n) 1 (b self) Hwf)
        as (s & Hs & HsN & Hswf & _).
      rewrite Hs. simpl. eexists. split; [reflexivity |]. simpl. split; [lia | done].
    + destruct (Bitmap.AppendMany_loop_ok (Z.to_nat n) 0 (b self) Hwf)
        as (s & Hs & HsN & Hswf & _).
      rewrite Hs. simpl. eexists. split; [reflexivity |]. simpl. split; [lia | done].
Qed.

Lemma run_calls_ok (cs : list call) (self : t) :
  Bitmap.wf (b self) ->
  exists self',
    run_calls cs self = Ok self' /\
    Bitmap.N (b self') = Bitmap.N (b self) + words_described cs /\
    Bitmap.wf (b self').
Proof.
  revert self. induction cs as [| c cs IH]; intros self Hwf; simpl.
  - exists self. split; [done |]. split; [lia | done].
  - destruct (run_call_ok c self Hwf) as (s & Hs & HsN & Hswf).
    destruct (IH s Hswf) as (s' & Hs' & Hs'N & Hs'wf).
    exists s'. rewrite Hs. simpl. split; [done |]. split; [lia | done].
Qed.

Lemma wf_fresh : Bitmap.wf (b fresh).
Proof. unfold Bitmap.wf, len; simpl. lia. Qed.

Lemma Build_L (self : t) : StackMap.L (Build self) = int32 (Bitmap.N (b self)).
Proof. reflexivity. Qed.

(** C1, as amended: for every sequence [b0 ... b(n-1)] of [AddField]
    arguments on a fresh builder, every call returns and [Build()] gives
    a stack map with bitmap count [N = 1], bit-length [L = int32(n)]
    (which is [n] itself whenever [n < 2^31]), and packed bit [i] equal
    to [b(i)] for every [i < n]. *)
Theorem Build_AddField_roundtrip (bs : list bool) :
  exists self,
    AddField_each bs fresh = Ok self /\
    StackMap.N (Build self) = 1 /\
    StackMap.L (Build self) = int32 (len bs) /\
    (len bs < 2 ^ 31 -> StackMap.L (Build self) = len bs) /\
    (forall (i : nat) (ptr : bool), bs !! i = Some ptr ->
       StackMap.bit (Build self) (Z.of_nat i) = ptr).
Proof.
  destruct (AddField_each_ok bs fresh wf_fresh) as (s & Hs & HsN & _ & Hnew & _).
  change (Bitmap.N (b fresh)) with 0 in *. rewrite Z.add_0_l in HsN.
  exists s.
  split; [done |].
  split; [reflexivity |].
  split; [rewrite Build_L, HsN; done |].
  split.
  - intros Hn. rewrite Build_L, HsN. apply int32_small. unfold len in *. lia.
  - intros i ptr Hi. specialize (Hnew i ptr Hi). rewrite Z.add_0_l in Hnew.
    exact Hnew.
Qed.

(** C1 as stated fails at [n = 2^31]: after that many [AddField(false)]
    calls the header's [int32] bit-length is [-2^31], not [n]. *)
Lemma Build_L_wraps :
  exists self,
    AddField_each (replicate (2 ^ 31)%nat false) fresh = Ok self /\
    StackMap.L (Build self) = - 2 ^ 31 /\
    StackMap.L (Build self) <> len (replicate (2 ^ 31)%nat false).
Proof.
  destruct (Build_AddField_roundtrip (replicate (2 ^ 31)%nat false))
    as (s & Hs & _ & HL & _).
  exists s. split; [exact Hs |].
  assert (Hlen : len (replicate (2 ^ 31)%nat false) = 2 ^ 31).
  { unfold len. rewrite length_replicate, Nat2Z.inj_pow. reflexivity. }
  rewrite Hlen in *. rewrite HL.
  split; [reflexivity |].
  intros Heq. vm_compute in Heq. discriminate Heq.
Qed.

(** C6, as amended: for every sequence of [AddField] and [AddFields]
    calls on a fresh builder, every call returns and the bit-length [L]
    that [Build()] records is the number of words the calls described
    (one per [AddField], [n] per [AddFields(n, _)], none when [n <= 0]),
    converted to [int32]: that number itself whenever it is below
    [2^31]. *)
Theorem Build_L_counts_words (cs : list call) :
  exists self,
    run_calls cs fresh = Ok self /\
    Bitmap.N (b self) = words_described cs /\
    StackMap.L (Build self) = int32 (words_described cs) /\
    (words_described cs < 2 ^ 31 -> StackMap.L (Build self) = words_described cs).
Proof.
  destruct (run_calls_ok cs fresh wf_fresh) as (s & Hs & HsN & [HN0 _]).
  change (Bitmap.N (b fresh)) with 0 in *. rewrite Z.add_0_l in HsN.
  exists s.
  split; [done |]. split; [done |].
  split; [rewrite Build_L, HsN; done |].
  intros Hw. rewrite Build_L, HsN. apply int32_small. lia.
Qed.

(** C6 as stated fails on a single [AddFields(3, true)]: one call, and
    [Build()] records [L = 3]. *)
Lemma Build_L_is_not_call_count :
  exists self,
    run_calls [CallAddFields 3 true] fresh = Ok self /\
    StackMap.L (Build self) = 3 /\
    StackMap.L (Build self) <> len [CallAddFields 3 true].
Proof.
  exists {| b := {| Bitmap.N := 3; Bitmap.B := [7] |} |}.
  split; [reflexivity |]. split; [reflexivity |].
  intros Heq. vm_compute in Heq. discriminate Heq.
Qed.

(** *** Mixed calls *)

Lemma run_call_op (c : call) (self : t) :
  run_call c self = (b' ← Bitmap.run_op (op_of_call c) (b self); Ok {| b := b' |}).
Proof. destruct c as [[|] | n [|]]; reflexivity. Qed.

Lemma length_flags_of_call (c : call) : len (flags_of_call c) = words_of_call c.
Proof.
  destruct c as [ptr | n ptr]; unfold len; simpl; [done |].
  rewrite length_replicate. lia.
Qed.

Lemma flags_of_call_lookup (c : call) (i : nat) (ptr : bool) :
  flags_of_call c !! i = Some ptr ->
  negb (match op_of_call c with
        | Bitmap.OpAppend bv | Bitmap.OpAppendMany _ bv => bv
        end =? 0) = ptr.
Proof.
  destruct c as [p | n p]; simpl.
  - destruct i; simpl; [| done]. intros Hi. injection Hi as <-. by destruct p.
  - intros Hi. apply lookup_replicate in Hi as [-> _]. by destruct p.
Qed.

Lemma run_calls_bits (cs : list call) (self : t) :
  Bitmap.tight (b self) -> Bitmap.zero_padded (b self) ->
  exists self',
    run_calls cs self = Ok self' /\
    Bitmap.N (b self') = Bitmap.N (b self) + len (flags_described cs) /\
    Bitmap.tight (b self') /\ Bitmap.zero_padded (b self') /\
    (forall (i : nat) (ptr : bool), flags_described cs !! i = Some ptr ->
       Bitmap.bit (b self') (Bitmap.N (b self) + Z.of_nat i) = ptr) /\
    (forall j, 0 <= j < Bitmap.N (b self) ->
       Bitmap.bit (b self') j = Bitmap.bit (b self) j).
Proof.
  revert self. induction cs as [| c cs IH]; intros self Ht Hz.
  - exists self. simpl. unfold len; simpl.
    split; [done |]. split; [lia |]. split; [done |]. split; [done |].
    split; [intros i p Hi; done | done].
  - destruct (Bitmap.run_op_bits (op_of_call c) (b self) Ht Hz)
      as (s & Hs & HsN & Hst & Hsz & Hnew & Hold).
    destruct (IH {| b := s |} Hst Hsz) as (s' & Hs' & Hs'N & Hs't & Hs'z & Hnew' & Hold').
    simpl in *.
    assert (Hw : Bitmap.bits_of_op (op_of_call c) = len (flags_of_call c)).
    { rewrite length_flags_of_call. by destruct c. }
    assert (H0 : 0 <= Bitmap.N (b self)) by apply Ht.
    exists s'. rewrite run_call_op, Hs. simpl.
    split; [done |].
    split.
    { unfold flags_described, len in *. simpl. rewrite length_app. lia. }
    split; [done |]. split; [done |].
    split.
    + intros i ptr Hi. unfold flags_described in Hi. simpl in Hi.
      destruct (decide (i < length (flags_of_call c))%nat) as [Hlt | Hge].
      * rewrite lookup_app_l in Hi by done.
        rewrite Hold' by (unfold len in *; lia).
        rewrite Hnew by (unfold len in *; lia).
        by apply (flags_of_call_lookup c i).
      * rewrite lookup_app_r in Hi by lia.
        specialize (Hnew' _ _ Hi).
        replace (Bitmap.N (b self) + Z.of_nat i)
          with (Bitmap.N s + Z.of_nat (i - length (flags_of_call c)))
          by (unfold len in *; lia).
        done.
    + intros j Hj. rewrite Hold' by (unfold len in *; lia). by apply Hold.
Qed.

(** X9: for every sequence of [AddField] and [AddFields] calls on a
    fresh builder, all calls return and the stack map that [Build()]
    gives holds, bit for bit and in order, the flags the calls described
    ([AddFields(n, p)] standing for [n] times [p], for nothing when
    [n <= 0]); every bit from the number of described words on is zero;
    and the map has exactly [ceil(words / 8)] bytes. *)
Theorem Build_roundtrip (cs : list call) :
  exists self,
    run_calls cs fresh = Ok self /\
    len (flags_described cs) = words_described cs /\
    (forall (i : nat) (ptr : bool), flags_described cs !! i = Some ptr ->
       StackMap.bit (Build self) (Z.of_nat i) = ptr) /\
    (forall j, words_described cs <= j -> StackMap.bit (Build self) j = false) /\
    len (StackMap.B (Build self)) = (words_described cs + 7) / 8.
Proof.
  assert (Hz : Bitmap.zero_padded (b fresh)).
  { intros j Hj. unfold Bitmap.bit. simpl.
    destruct (Z.to_nat (j / 8)); simpl; apply Z.testbit_0_l. }
  destruct (run_calls_bits cs fresh Bitmap.tight_empty Hz)
    as (s & Hs & HsN & Hst & Hsz & Hnew & _).
  change (Bitmap.N (b fresh)) with 0 in *. rewrite Z.add_0_l in HsN.
  assert (Hw : len (flags_described cs) = words_described cs).
  { clear. induction cs as [| c cs IH]; [done |].
    unfold flags_described, len in *. simpl. rewrite length_app.
    pose proof (length_flags_of_call c) as Hc. unfold len in Hc. lia. }
  exists s. split; [done |]. split; [done |].
  split.
  { intros i ptr Hi. specialize (Hnew i ptr Hi). by rewrite Z.add_0_l in Hnew. }
  split.
  { intros j Hj. apply (Hsz j). lia. }
  simpl. destruct Hst as [_ HB]. rewrite HB, HsN, Hw. done.
Qed.

Lemma AddFields_loop (k : nat) (ptr : bool) (self : t) :
  (b' ← Bitmap.AppendMany_loop k (if ptr then 1 else 0) (b self); Ok {| b := b' |})
  = AddField_each (replicate k ptr) self.
Proof.
  revert self. induction k as [| k IH]; intros self; simpl.
  - by destruct self.
  - unfold AddField.
    destruct ptr; simpl;
      (destruct (Bitmap.Append _ (b self)) as [b1 | p]; simpl; [| done]);
      apply (IH {| b := b1 |}).
Qed.

(** X18: [AddFields(n, ptr)] does what [n] calls of [AddField(ptr)] do,
    one after the other, panics included, and nothing at all when
    [n <= 0]. *)
Theorem AddFields_repeats_AddField (n : Z) (ptr : bool) (self : t) :
  AddFields n ptr self = AddField_each (replicate (Z.to_nat n) ptr) self.
Proof.
  rewrite <- AddFields_loop. unfold AddFields, Bitmap.AppendMany.
  by destruct ptr.
Qed.

End StackMapBuilder.

(** ** TDCE: trivial dead-code elimination on the SSA graph *)

Module SSA.

Local Open Scope nat_scope.

(** Threading the [done] flag of a round through a loop over [l]. *)
Fixpoint each {A : Type} (f : A -> bool -> A * bool) (l : list A) (done : bool)
  : list A * bool :=
  match l with
  | [] => ([], done)
  | x :: l' =>
      let '(x', done) := f x done in
      let '(l'', done) := each f l' done in
      (x' :: l'', done)
  end.

(** The idiom of phase 4: [out := s[:0]], then [out = append(out, v)]
    for the elements of [s] to keep while [s] is being ranged over.
    [out] shares the backing array [arr] of [s]; [i] is the position of
    the range loop, [j] the length of [out], and the element read at
    step [i] is read from the array as it is by then. *)
Fixpoint compact_from {A : Type} (keep : A -> bool) (steps i j : nat) (arr : list A)
  : list A :=
  match steps with
  | O => take j arr
  | S steps' =>
      match arr !! i with
      | Some v =>
          if keep v
          then compact_from keep steps' (S i) (S j) (<[j := v]> arr)
          else compact_from keep steps' (S i) j arr
      | None => take j arr
      end
  end.

Definition compact {A : Type} (keep : A -> bool) (s : list A) : list A :=
  compact_from keep (length s) 0 0 s.

Section TDCE.

(** Modelled from the spec: the register type of the SSA package is not
    part of the source at hand.  A register is an opaque value that can
    be compared and used as a map key; it has a [Kind], one kind
    ([K_zero]) marks the zero sentinel, and [r.Zero()] builds a sentinel
    from [r]. *)
Context {Reg : Type} `{Countable Reg}.
Variable Kind : Reg -> nat.
Variable K_zero : nat.
Variable Zero : Reg -> Reg.

(** [r.Kind() != K_zero] *)
Definition live_reg (r : Reg) : bool := negb (Kind r =? K_zero).

(** Modelled from the spec: the IR node types are not part of the source
    at hand.  A Phi node always has [Definitions()] and [Usages()]; an
    instruction or terminator has each of them only if it implements
    [IrDefinitions], respectively [IrUsages] ([None] when the type
    assertion fails).  Both return pointers to register slots that the
    node owns; the record holds the contents of the slots, in order. *)
Record IrPhi : Type := mkPhi {
  Phi_Definitions : list Reg;
  Phi_Usages : list Reg
}.

Record IrNode : Type := mkIr {
  Ir_name : string;
  Ir_Definitions : option (list Reg);
  Ir_Usages : option (list Reg)
}.

Record BasicBlock : Type := mkBB {
  Phi : list IrPhi;
  Ins : list IrNode;
  Term : IrNode
}.

(** Modelled from the spec: [CFG.PostOrder] is not part of the source at
    hand.  It visits every block exactly once, and [TDCE] changes no
    control edge, so the graph is the sequence of its blocks in the order
    of the visit, the same in all four phases. *)
Definition CFG : Type := list BasicBlock.

(** *** Phase 1: mark all the definitions *)

(** [for _, r := range rs { decl[*r] = struct{}{} }] *)
Definition mark_all (rs : list Reg) (decl : gset Reg) : gset Reg :=
  foldl (fun decl r => {[ r ]} ∪ decl) decl rs.

Definition mark_node (v : IrNode) (decl : gset Reg) : gset Reg :=
  match Ir_Definitions v with
  | Some rs => mark_all rs decl
  | None => decl
  end.

Definition phase1_block (decl : gset Reg) (bb : BasicBlock) : gset Reg :=
  let decl := foldl (fun decl v => mark_all (Phi_Definitions v) decl) decl (Phi bb) in
  let decl := foldl (fun decl v => mark_node v decl) decl (Ins bb) in
  mark_node (Term bb) decl.

Definition phase1 (cfg : CFG) : gset Reg := foldl phase1_block ∅ cfg.

(** *** Phase 2: find all register usages *)

(** [for _, r := range rs { delete(decl, *r) }] *)
Definition delete_all (rs : list Reg) (decl : gset Reg) : gset Reg :=
  foldl (fun decl r => decl ∖ {[ r ]}) decl rs.

Definition delete_node (v : IrNode) (decl : gset Reg) : gset Reg :=
  match Ir_Usages v with
  | Some rs => delete_all rs decl
  | None => decl
  end.

Definition phase2_block (decl : gset Reg) (bb : BasicBlock) : gset Reg :=
  let decl := foldl (fun decl v => delete_all (Phi_Usages v) decl) decl (Phi bb) in
  let decl := foldl (fun decl v => delete_node v decl) decl (Ins bb) in
  delete_node (Term bb) decl.

Definition phase2 (cfg : CFG) (decl : gset Reg) : gset Reg := foldl phase2_block decl cfg.

(** *** Phase 3: replace unused assignments with zero registers *)

(** [if _, ok = decl[*r]; ok && r.Kind() != K_zero] *)
Definition unused (decl : gset Reg) (r : Reg) : bool :=
  bool_decide (r ∈ decl) && live_reg r.

(** [*r, done = r.Zero(), false] under that condition. *)
Definition zero_slot (decl : gset Reg) (r : Reg) (done : bool) : Reg * bool :=
  if unused decl r then (Zero r, false) else (r, done).

Definition zero_phi (decl : gset Reg) (v : IrPhi) (done : bool) : IrPhi * bool :=
  let '(rs, done) := each (zero_slot decl) (Phi_Definitions v) done in
  ({| Phi_Definitions := rs; Phi_Usages := Phi_Usages v |}, done).

Definition zero_node (decl : gset Reg) (v : IrNode) (done : bool) : IrNode * bool :=
  match Ir_Definitions v with
  | Some rs =>
      let '(rs, done) := each (zero_slot decl) rs done in
      ({| Ir_name := Ir_name v; Ir_Definitions := Some rs; Ir_Usages := Ir_Usages v |}, done)
  | None => (v, done)
  end.

Definition phase3_block (decl : gset Reg) (bb : BasicBlock) (done : bool)
  : BasicBlock * bool :=
  let '(phi, done) := each (zero_phi decl) (Phi bb) done in
  let '(ins, done) := each (zero_node decl) (Ins bb) done in
  let '(term, done) := zero_node decl (Term bb) done in
  ({| Phi := phi; Ins := ins; Term := term |}, done).

Definition phase3 (decl : gset Reg) (cfg : CFG) (done : bool) : CFG * bool :=
  each (phase3_block decl) cfg done.

(** *** Phase 4: remove the entire definition if it is all zeros *)

(** A Phi node is appended at the first declared register that is not
    of the zero kind. *)
Definition keep_phi (v : IrPhi) : bool := existsb live_reg (Phi_Definitions v).

(** An instruction is appended if it has no [Definitions()], if that
    list is empty, or at its first declared register that is not of the
    zero kind. *)
Definition keep_ins (v : IrNode) : bool :=
  match Ir_Definitions v with
  | None => true
  | Some [] => true
  | Some rr => existsb live_reg rr
  end.

Definition phase4_block (bb : BasicBlock) : BasicBlock :=
  {| Phi := compact keep_phi (Phi bb);
     Ins := compact keep_ins (Ins bb);
     Term := Term bb |}.

Definition phase4 (cfg : CFG) : CFG := map phase4_block cfg.

(** *** The outer loop *)

(** One pass through the body of the [for] loop: the graph it leaves and
    the value of [done] at the bottom. *)
Definition round (cfg : CFG) : CFG * bool :=
  let decl := phase2 cfg (phase1 cfg) in
  let '(cfg, done) := phase3 decl cfg true in
  (phase4 cfg, done).

(** [for { ...; if done { break } }], for at most [fuel] rounds. *)
Fixpoint Apply_loop (fuel : nat) (cfg : CFG) : option CFG :=
  match fuel with
  | O => None
  | S fuel' =>
      let '(cfg, done) := round cfg in
      if done then Some cfg else Apply_loop fuel' cfg
  end.

(** *** Views of a graph used to state the properties *)

Definition node_defs (v : IrNode) : list Reg := default [] (Ir_Definitions v).
Definition node_uses (v : IrNode) : list Reg := default [] (Ir_Usages v).

Definition block_defs (bb : BasicBlock) : list Reg :=
  concat (map Phi_Definitions (Phi bb)) ++ concat (map node_defs (Ins bb))
  ++ node_defs (Term bb).

Definition block_uses (bb : BasicBlock) : list Reg :=
  concat (map Phi_Usages (Phi bb)) ++ concat (map node_uses (Ins bb))
  ++ node_uses (Term bb).

(** Every declared register slot, respectively every read one, in the
    order of the visit. *)
Definition cfg_defs (cfg : CFG) : list Reg := concat (map block_defs cfg).
Definition cfg_uses (cfg : CFG) : list Reg := concat (map block_uses cfg).

(** The number of declared slots that are not the zero sentinel. *)
Definition live (cfg : CFG) : nat := length (List.filter live_reg (cfg_defs cfg)).

(** The graph after one round, and [TDCE.Apply] with the fuel that
    [Apply_terminates] shows to be enough. *)
Definition next (cfg : CFG) : CFG := fst (round cfg).

Definition Apply (cfg : CFG) : option CFG := Apply_loop (S (live cfg)) cfg.

(** No Phi node or instruction of the graph would be dropped by
    phase 4. *)
Definition compacted (cfg : CFG) : Prop :=
  forall bb, bb ∈ cfg ->
    (forall v, v ∈ Phi bb -> keep_phi v = true) /\
    (forall v, v ∈ Ins bb -> keep_ins v = true).

(** What phase 3 does to a slot, a node and a block, without the flag. *)
Definition zeroed (decl : gset Reg) (r : Reg) : Reg :=
  if unused decl r then Zero r else r.

Definition zeroed_phi (decl : gset Reg) (v : IrPhi) : IrPhi :=
  {| Phi_Definitions := map (zeroed decl) (Phi_Definitions v);
     Phi_Usages := Phi_Usages v |}.

Definition zeroed_node (decl : gset Reg) (v : IrNode) : IrNode :=
  match Ir_Definitions v with
  | Some rs =>
      {| Ir_name := Ir_name v;
         Ir_Definitions := Some (map (zeroed decl) rs);
         Ir_Usages := Ir_Usages v |}
  | None => v
  end.

Definition zeroed_block (decl : gset Reg) (bb : BasicBlock) : BasicBlock :=
  {| Phi := map (zeroed_phi decl) (Phi bb);
     Ins := map (zeroed_node decl) (Ins bb);
     Term := zeroed_node decl (Term bb) |}.

(** No slot of [rs] is rewritten by phase 3. *)
Definition settled (decl : gset Reg) (rs : list Reg) : bool :=
  forallb (fun r => negb (unused decl r)) rs.

(** [bb'] is [bb] with some Phi nodes and instructions taken out: what is
    left is in the order it was in, with the names and usage lists it
    had, and the terminator has its name, its usage list and as many
    declared slots as before. *)
Definition same_shape (bb' bb : BasicBlock) : Prop :=
  map Phi_Usages (Phi bb') `sublist_of` map Phi_Usages (Phi bb) /\
  map (fun v => (Ir_name v, Ir_Usages v)) (Ins bb')
    `sublist_of` map (fun v => (Ir_name v, Ir_Usages v)) (Ins bb) /\
  Ir_name (Term bb') = Ir_name (Term bb) /\
  Ir_Usages (Term bb') = Ir_Usages (Term bb) /\
  length <$> Ir_Definitions (Term bb') = length <$> Ir_Definitions (Term bb).

(** *** Loops *)

Lemma each_spec {A : Type} (f : A -> bool -> A * bool) (g : A -> A) (p : A -> bool) :
  (forall x done, f x done = (g x, done && p x)) ->
  forall l done, each f l done = (map g l, done && forallb p l).
Proof.
  intros Hf l. induction l as [| x l IH]; intros done; simpl.
  - by rewrite andb_true_r.
  - rewrite Hf, IH. by rewrite andb_assoc.
Qed.

Lemma compact_from_spec {A : Type} (keep : A -> bool) (steps i j : nat) (arr : list A) :
  j <= i -> i + steps = length arr ->
  compact_from keep steps i j arr = take j arr ++ List.filter keep (drop i arr).
Proof.
  revert i j arr. induction steps as [| steps IH]; intros i j arr Hji Hlen; simpl.
  - rewrite drop_ge by lia. simpl. by rewrite app_nil_r.
  - destruct (arr !! i) as [v |] eqn:Hv.
    + rewrite (drop_S arr v i Hv). simpl.
      destruct (keep v) eqn:Hk.
      * rewrite IH by (rewrite ?length_insert; lia).
        rewrite drop_insert_lt by lia.
        rewrite (take_S_r _ _ v) by (apply list_lookup_insert_eq; lia).
        rewrite take_insert_ge by lia.
        by rewrite <- app_assoc.
      * rewrite IH by lia. done.
    + apply lookup_ge_None_1 in Hv. lia.
Qed.

(** The in-place compaction of phase 4 is a filter. *)
Lemma compact_filter {A : Type} (keep : A -> bool) (s : list A) :
  compact keep s = List.filter keep s.
Proof.
  unfold compact. rewrite compact_from_spec by lia. done.
Qed.

Lemma elem_of_concat_map {A : Type} (f : A -> list Reg) (l : list A) (r : Reg) :
  r ∈ concat (map f l) <-> exists v, v ∈ l /\ r ∈ f v.
Proof.
  induction l as [| x l IH]; simpl.
  - split; [intros Hr; by apply not_elem_of_nil in Hr |].
    intros (v & Hv & _). by apply not_elem_of_nil in Hv.
  - rewrite elem_of_app, IH. split.
    + intros [Hr | (v & Hv & Hr)].
      * exists x. split; [apply list_elem_of_here | done].
      * exists v. split; [by apply list_elem_of_further | done].
    + intros (v & Hv & Hr). apply elem_of_cons in Hv as [-> | Hv]; eauto.
Qed.

Lemma elem_of_foldl_add {A : Type} (g : gset Reg -> A -> gset Reg) (f : A -> list Reg) :
  (forall d v r, r ∈ g d v <-> r ∈ f v \/ r ∈ d) ->
  forall l d r, r ∈ foldl g d l <-> r ∈ concat (map f l) \/ r ∈ d.
Proof.
  intros Hg l. induction l as [| v l IH]; intros d r; simpl.
  - split; [auto |]. intros [Hr | Hr]; [by apply not_elem_of_nil in Hr | done].
  - rewrite IH, Hg, elem_of_app. tauto.
Qed.

Lemma elem_of_foldl_del {A : Type} (g : gset Reg -> A -> gset Reg) (f : A -> list Reg) :
  (forall d v r, r ∈ g d v <-> r ∈ d /\ r ∉ f v) ->
  forall l d r, r ∈ foldl g d l <-> r ∈ d /\ r ∉ concat (map f l).
Proof.
  intros Hg l. induction l as [| v l IH]; intros d r; simpl.
  - split; [| tauto]. intros Hr. split; [done | apply not_elem_of_nil].
  - rewrite IH, Hg, elem_of_app. tauto.
Qed.

(** *** Phases 1 and 2 *)

Lemma elem_of_mark_all (rs : list Reg) (d : gset Reg) (r : Reg) :
  r ∈ mark_all rs d <-> r ∈ rs \/ r ∈ d.
Proof.
  unfold mark_all.
  rewrite (elem_of_foldl_add _ (fun r => [r])).
  - rewrite elem_of_concat_map. split.
    + intros [(v & Hv & Hr) | Hr]; [| auto].
      apply list_elem_of_singleton in Hr as ->. auto.
    + intros [Hr | Hr]; [| auto]. left. exists r.
      split; [done | by apply list_elem_of_singleton].
  - intros d' v r'. rewrite elem_of_union, elem_of_singleton, list_elem_of_singleton.
    done.
Qed.

Lemma elem_of_mark_node (v : IrNode) (d : gset Reg) (r : Reg) :
  r ∈ mark_node v d <-> r ∈ node_defs v \/ r ∈ d.
Proof.
  unfold mark_node, node_defs. destruct (Ir_Definitions v); simpl.
  - apply elem_of_mark_all.
  - split; [auto |]. intros [Hr | Hr]; [by apply not_elem_of_nil in Hr | done].
Qed.

Lemma elem_of_phase1_block (bb : BasicBlock) (d : gset Reg) (r : Reg) :
  r ∈ phase1_block d bb <-> r ∈ block_defs bb \/ r ∈ d.
Proof.
  unfold phase1_block, block_defs.
  rewrite elem_of_mark_node.
  rewrite (elem_of_foldl_add _ node_defs)
    by (intros; apply elem_of_mark_node).
  rewrite (elem_of_foldl_add _ Phi_Definitions)
    by (intros; apply elem_of_mark_all).
  rewrite !elem_of_app. tauto.
Qed.

(** Phase 1 collects exactly the declared registers. *)
Lemma elem_of_phase1 (cfg : CFG) (r : Reg) : r ∈ phase1 cfg <-> r ∈ cfg_defs cfg.
Proof.
  unfold phase1, cfg_defs.
  rewrite (elem_of_foldl_add _ block_defs)
    by (intros; apply elem_of_phase1_block).
  rewrite elem_of_empty. tauto.
Qed.

Lemma elem_of_delete_all (rs : list Reg) (d : gset Reg) (r : Reg) :
  r ∈ delete_all rs d <-> r ∈ d /\ r ∉ rs.
Proof.
  unfold delete_all.
  rewrite (elem_of_foldl_del _ (fun r => [r])).
  - rewrite elem_of_concat_map. split.
    + intros [Hd Hr]. split; [done |]. intros Hin. apply Hr.
      exists r. split; [done | by apply list_elem_of_singleton].
    + intros [Hd Hr]. split; [done |]. intros (v & Hv & Hin). apply Hr.
      apply list_elem_of_singleton in Hin as ->. done.
  - intros d' v r'.
    rewrite elem_of_difference, not_elem_of_singleton, list_elem_of_singleton.
    done.
Qed.

Lemma elem_of_delete_node (v : IrNode) (d : gset Reg) (r : Reg) :
  r ∈ delete_node v d <-> r ∈ d /\ r ∉ node_uses v.
Proof.
  unfold delete_node, node_uses. destruct (Ir_Usages v); simpl.
  - apply elem_of_delete_all.
  - split; [| tauto]. intros Hr. split; [done | apply not_elem_of_nil].
Qed.

Lemma elem_of_phase2_block (bb : BasicBlock) (d : gset Reg) (r : Reg) :
  r ∈ phase2_block d bb <-> r ∈ d /\ r ∉ block_uses bb.
Proof.
  unfold phase2_block, block_uses.
  rewrite elem_of_delete_node.
  rewrite (elem_of_foldl_del _ node_uses)
    by (intros; apply elem_of_delete_node).
  rewrite (elem_of_foldl_del _ Phi_Usages)
    by (intros; apply elem_of_delete_all).
  rewrite !elem_of_app. tauto.
Qed.

(** After phase 2 the set holds exactly the registers that are declared
    somewhere and read nowhere. *)
Lemma elem_of_phase2 (cfg : CFG) (r : Reg) :
  r ∈ phase2 cfg (phase1 cfg) <-> r ∈ cfg_defs cfg /\ r ∉ cfg_uses cfg.
Proof.
  unfold phase2, cfg_uses.
  rewrite (elem_of_foldl_del _ block_uses)
    by (intros; apply elem_of_phase2_block).
  rewrite elem_of_phase1. done.
Qed.

(** *** Phase 3 *)

Lemma zero_slot_spec (decl : gset Reg) (r : Reg) (done : bool) :
  zero_slot decl r done = (zeroed decl r, done && negb (unused decl r)).
Proof.
  unfold zero_slot, zeroed. destruct (unused decl r); simpl.
  - by rewrite andb_false_r.
  - by rewrite andb_true_r.
Qed.

Lemma zero_phi_spec (decl : gset Reg) (v : IrPhi) (done : bool) :
  zero_phi decl v done
  = (zeroed_phi decl v, done && settled decl (Phi_Definitions v)).
Proof.
  unfold zero_phi. rewrite (each_spec _ _ _ (zero_slot_spec decl)). done.
Qed.

Lemma zero_node_spec (decl : gset Reg) (v : IrNode) (done : bool) :
  zero_node decl v done = (zeroed_node decl v, done && settled decl (node_defs v)).
Proof.
  unfold zero_node, zeroed_node, node_defs. destruct (Ir_Definitions v); simpl.
  - rewrite (each_spec _ _ _ (zero_slot_spec decl)). done.
  - by rewrite andb_true_r.
Qed.

Lemma forallb_concat_map {A : Type} (p : Reg -> bool) (f : A -> list Reg) (l : list A) :
  forallb p (concat (map f l)) = forallb (fun v => forallb p (f v)) l.
Proof.
  induction l as [| v l IH]; simpl; [done |].
  by rewrite forallb_app, IH.
Qed.

Lemma phase3_block_spec (decl : gset Reg) (bb : BasicBlock) (done : bool) :
  phase3_block decl bb done
  = (zeroed_block decl bb, done && settled decl (block_defs bb)).
Proof.
  unfold phase3_block.
  rewrite (each_spec _ _ _ (zero_phi_spec decl)).
  rewrite (each_spec _ _ _ (zero_node_spec decl)).
  rewrite zero_node_spec.
  unfold zeroed_block, settled, block_defs.
  rewrite !forallb_app, !forallb_concat_map, !andb_assoc. done.
Qed.

Lemma phase3_spec (decl : gset Reg) (cfg : CFG) (done : bool) :
  phase3 decl cfg done
  = (map (zeroed_block decl) cfg, done && settled decl (cfg_defs cfg)).
Proof.
  unfold phase3. rewrite (each_spec _ _ _ (phase3_block_spec decl)).
  unfold settled, cfg_defs. by rewrite forallb_concat_map.
Qed.

Lemma node_defs_zeroed (decl : gset Reg) (v : IrNode) :
  node_defs (zeroed_node decl v) = map (zeroed decl) (node_defs v).
Proof.
  unfold zeroed_node, node_defs. destruct (Ir_Definitions v) eqn:Hv; simpl; [done |].
  by rewrite Hv.
Qed.

Lemma node_uses_zeroed (decl : gset Reg) (v : IrNode) :
  node_uses (zeroed_node decl v) = node_uses v.
Proof.
  unfold zeroed_node, node_uses. by destruct (Ir_Definitions v).
Qed.

Lemma concat_map_map {A : Type} (h : Reg -> Reg) (f f' : A -> list Reg) (g : A -> A)
    (l : list A) :
  (forall v, f' (g v) = map h (f v)) ->
  concat (map f' (map g l)) = map h (concat (map f l)).
Proof.
  intros Hfg. induction l as [| v l IH]; simpl; [done |].
  by rewrite map_app, Hfg, IH.
Qed.

Lemma block_defs_zeroed (decl : gset Reg) (bb : BasicBlock) :
  block_defs (zeroed_block decl bb) = map (zeroed decl) (block_defs bb).
Proof.
  unfold block_defs, zeroed_block; simpl.
  rewrite !map_app.
  rewrite (concat_map_map (zeroed decl) Phi_Definitions Phi_Definitions) by done.
  rewrite (concat_map_map (zeroed decl) node_defs node_defs)
    by apply node_defs_zeroed.
  by rewrite node_defs_zeroed.
Qed.

Lemma block_uses_zeroed (decl : gset Reg) (bb : BasicBlock) :
  block_uses (zeroed_block decl bb) = block_uses bb.
Proof.
  unfold block_uses, zeroed_block; simpl.
  rewrite !map_map, node_uses_zeroed.
  rewrite (map_ext _ node_uses (node_uses_zeroed decl)).
  done.
Qed.

(** Phase 3 rewrites slots and nothing else. *)
Lemma cfg_defs_zeroed (decl : gset Reg) (cfg : CFG) :
  cfg_defs (map (zeroed_block decl) cfg) = map (zeroed decl) (cfg_defs cfg).
Proof.
  unfold cfg_defs. apply concat_map_map. apply block_defs_zeroed.
Qed.

Lemma cfg_uses_zeroed (decl : gset Reg) (cfg : CFG) :
  cfg_uses (map (zeroed_block decl) cfg) = cfg_uses cfg.
Proof.
  unfold cfg_uses. rewrite map_map. f_equal. apply map_ext.
  intros bb. apply block_uses_zeroed.
Qed.

(** *** Phase 4 *)

Lemma keep_phi_false (v : IrPhi) :
  keep_phi v = false -> List.filter live_reg (Phi_Definitions v) = [].
Proof.
  unfold keep_phi. induction (Phi_Definitions v) as [| r rs IH]; simpl; [done |].
  destruct (live_reg r); simpl; [done | exact IH].
Qed.

Lemma existsb_false_filter (rs : list Reg) :
  existsb live_reg rs = false -> List.filter live_reg rs = [].
Proof.
  induction rs as [| r rs IH]; simpl; [done |].
  destruct (live_reg r); simpl; [done | exact IH].
Qed.

Lemma keep_ins_false (v : IrNode) :
  keep_ins v = false -> List.filter live_reg (node_defs v) = [].
Proof.
  unfold keep_ins, node_defs. destruct (Ir_Definitions v) as [[| r rs] |]; simpl; try done.
  intros Hk. apply (existsb_false_filter (r :: rs)). exact Hk.
Qed.

Lemma filter_concat_filter {A : Type} (keep : A -> bool) (f : A -> list Reg) (l : list A) :
  (forall v, keep v = false -> List.filter live_reg (f v) = []) ->
  List.filter live_reg (concat (map f (List.filter keep l)))
  = List.filter live_reg (concat (map f l)).
Proof.
  intros Hk. induction l as [| v l IH]; simpl; [done |].
  rewrite List.filter_app. destruct (keep v) eqn:Hv; simpl.
  - by rewrite List.filter_app, IH.
  - by rewrite (Hk v Hv), IH.
Qed.

Lemma elem_of_concat_filter {A : Type} (keep : A -> bool) (f : A -> list Reg)
    (l : list A) (r : Reg) :
  r ∈ concat (map f (List.filter keep l)) -> r ∈ concat (map f l).
Proof.
  rewrite !elem_of_concat_map. intros (v & Hv & Hr). exists v. split; [| done].
  apply list_elem_of_In. apply list_elem_of_In in Hv.
  apply List.filter_In in Hv. tauto.
Qed.

Lemma phase4_block_filter (bb : BasicBlock) :
  phase4_block bb
  = {| Phi := List.filter keep_phi (Phi bb);
       Ins := List.filter keep_ins (Ins bb);
       Term := Term bb |}.
Proof. unfold phase4_block. by rewrite !compact_filter. Qed.

Lemma live_block_defs_phase4 (bb : BasicBlock) :
  List.filter live_reg (block_defs (phase4_block bb))
  = List.filter live_reg (block_defs bb).
Proof.
  rewrite phase4_block_filter. unfold block_defs; simpl.
  rewrite !List.filter_app.
  rewrite (filter_concat_filter keep_phi) by apply keep_phi_false.
  rewrite (filter_concat_filter keep_ins) by apply keep_ins_false.
  done.
Qed.

(** Phase 4 drops no slot that is not the zero sentinel. *)
Lemma live_phase4 (cfg : CFG) : live (phase4 cfg) = live cfg.
Proof.
  unfold live, phase4, cfg_defs. f_equal.
  induction cfg as [| bb cfg IH]; simpl; [done |].
  by rewrite !List.filter_app, live_block_defs_phase4, IH.
Qed.

Lemma block_defs_phase4 (bb : BasicBlock) (r : Reg) :
  r ∈ block_defs (phase4_block bb) -> r ∈ block_defs bb.
Proof.
  rewrite phase4_block_filter. unfold block_defs; simpl.
  rewrite !elem_of_app.
  intros [Hr | [Hr | Hr]]; eauto using elem_of_concat_filter.
Qed.

Lemma block_uses_phase4 (bb : BasicBlock) (r : Reg) :
  r ∈ block_uses (phase4_block bb) -> r ∈ block_uses bb.
Proof.
  rewrite phase4_block_filter. unfold block_uses; simpl.
  rewrite !elem_of_app.
  intros [Hr | [Hr | Hr]]; eauto using elem_of_concat_filter.
Qed.

Lemma cfg_defs_phase4 (cfg : CFG) (r : Reg) :
  r ∈ cfg_defs (phase4 cfg) -> r ∈ cfg_defs cfg.
Proof.
  unfold cfg_defs, phase4. rewrite !elem_of_concat_map.
  intros (bb & Hbb & Hr).
  apply list_elem_of_fmap in Hbb as (bb0 & -> & Hbb0).
  exists bb0. split; [done |]. by apply block_defs_phase4.
Qed.

Lemma cfg_uses_phase4 (cfg : CFG) (r : Reg) :
  r ∈ cfg_uses (phase4 cfg) -> r ∈ cfg_uses cfg.
Proof.
  unfold cfg_uses, phase4. rewrite !elem_of_concat_map.
  intros (bb & Hbb & Hr).
  apply list_elem_of_fmap in Hbb as (bb0 & -> & Hbb0).
  exists bb0. split; [done |]. by apply block_uses_phase4.
Qed.

(** *** One round *)

Lemma round_spec (cfg : CFG) :
  round cfg
  = (phase4 (map (zeroed_block (phase2 cfg (phase1 cfg))) cfg),
     settled (phase2 cfg (phase1 cfg)) (cfg_defs cfg)).
Proof.
  unfold round. rewrite phase3_spec. done.
Qed.

(** *** Termination *)

(** What makes [r.Zero()] a zero sentinel. *)
Hypothesis Zero_Kind : forall r, Kind (Zero r) = K_zero.

Lemma unused_live (decl : gset Reg) (r : Reg) :
  unused decl r = true -> live_reg r = true.
Proof. unfold unused. intros Hu. by apply andb_true_iff in Hu as [_ Hl]. Qed.

Lemma live_reg_Zero (r : Reg) : live_reg (Zero r) = false.
Proof. unfold live_reg. rewrite Zero_Kind, Nat.eqb_refl. done. Qed.

Lemma live_reg_zeroed (decl : gset Reg) (r : Reg) :
  live_reg (zeroed decl r) = live_reg r && negb (unused decl r).
Proof.
  unfold zeroed. destruct (unused decl r) eqn:Hu; simpl.
  - by rewrite live_reg_Zero, andb_false_r.
  - by rewrite andb_true_r.
Qed.

(** Every slot that was live is still live or has just been rewritten. *)
Lemma live_zeroed_count (decl : gset Reg) (rs : list Reg) :
  length (List.filter live_reg (map (zeroed decl) rs))
  + length (List.filter (unused decl) rs)
  = length (List.filter live_reg rs).
Proof.
  induction rs as [| r rs IH]; simpl; [done |].
  rewrite live_reg_zeroed.
  destruct (unused decl r) eqn:Hu.
  - rewrite (unused_live decl r Hu). simpl. lia.
  - rewrite andb_true_r. destruct (live_reg r); simpl; lia.
Qed.

Lemma settled_false (decl : gset Reg) (rs : list Reg) :
  settled decl rs = false -> 0 < length (List.filter (unused decl) rs).
Proof.
  induction rs as [| r rs IH]; simpl; [done |].
  destruct (unused decl r); simpl; [lia | exact IH].
Qed.

Lemma settled_true (decl : gset Reg) (rs : list Reg) :
  settled decl rs = true <-> map (zeroed decl) rs = rs.
Proof.
  induction rs as [| r rs IH]; simpl; [done |].
  unfold zeroed at 1. destruct (unused decl r) eqn:Hu; simpl.
  - split; [done |]. intros Heq. injection Heq as Hr _.
    apply unused_live in Hu. rewrite <- Hr, live_reg_Zero in Hu. done.
  - rewrite IH. split; [by intros -> |]. intros Heq. by injection Heq.
Qed.

Lemma settled_app (decl : gset Reg) (rs rs' : list Reg) :
  settled decl (rs ++ rs') = settled decl rs && settled decl rs'.
Proof. apply forallb_app. Qed.

Lemma settled_concat {A : Type} (decl : gset Reg) (f : A -> list Reg) (l : list A) :
  settled decl (concat (map f l)) = true ->
  forall v, v ∈ l -> settled decl (f v) = true.
Proof.
  unfold settled. rewrite forallb_concat_map, forallb_forall.
  intros Hall v Hv. apply Hall. by apply list_elem_of_In.
Qed.

Lemma map_id_on {A : Type} (g : A -> A) (l : list A) :
  (forall v, v ∈ l -> g v = v) -> map g l = l.
Proof.
  induction l as [| x l IH]; intros Hg; simpl; [done |].
  rewrite Hg by apply list_elem_of_here.
  rewrite IH; [done |]. intros v Hv. apply Hg. by apply list_elem_of_further.
Qed.

Lemma zeroed_node_settled (decl : gset Reg) (v : IrNode) :
  settled decl (node_defs v) = true -> zeroed_node decl v = v.
Proof.
  unfold zeroed_node, node_defs. destruct v as [name [rs |] us]; simpl; [| done].
  intros Hs. apply settled_true in Hs. by rewrite Hs.
Qed.

Lemma zeroed_block_settled (decl : gset Reg) (bb : BasicBlock) :
  settled decl (block_defs bb) = true -> zeroed_block decl bb = bb.
Proof.
  unfold block_defs. rewrite !settled_app, !andb_true_iff.
  intros (Hphi & Hins & Hterm).
  destruct bb as [phi ins term]; simpl in *. unfold zeroed_block; simpl.
  f_equal.
  - apply map_id_on. intros v Hv.
    pose proof (settled_concat decl _ _ Hphi v Hv) as Hs.
    apply settled_true in Hs. destruct v as [ds us]; simpl in *.
    unfold zeroed_phi; simpl. by rewrite Hs.
  - apply map_id_on. intros v Hv. apply zeroed_node_settled.
    exact (settled_concat decl _ _ Hins v Hv).
  - by apply zeroed_node_settled.
Qed.

(** A round ends with [done] still true exactly when phase 3 left the
    graph as it was. *)
Lemma zeroed_cfg_settled (decl : gset Reg) (cfg : CFG) :
  settled decl (cfg_defs cfg) = true <-> map (zeroed_block decl) cfg = cfg.
Proof.
  split.
  - intros Hs. apply map_id_on. intros bb Hbb. apply zeroed_block_settled.
    exact (settled_concat decl _ _ Hs bb Hbb).
  - intros Heq. apply settled_true. by rewrite <- cfg_defs_zeroed, Heq.
Qed.

Lemma next_spec (cfg : CFG) :
  next cfg = phase4 (map (zeroed_block (phase2 cfg (phase1 cfg))) cfg).
Proof. unfold next. by rewrite round_spec. Qed.

Lemma done_spec (cfg : CFG) :
  snd (round cfg) = settled (phase2 cfg (phase1 cfg)) (cfg_defs cfg).
Proof. by rewrite round_spec. Qed.

Lemma live_next (cfg : CFG) :
  live (next cfg)
  + length (List.filter (unused (phase2 cfg (phase1 cfg))) (cfg_defs cfg))
  = live cfg.
Proof.
  rewrite next_spec, live_phase4. unfold live at 1.
  rewrite cfg_defs_zeroed. apply live_zeroed_count.
Qed.

Lemma live_next_le (cfg : CFG) : live (next cfg) <= live cfg.
Proof. pose proof (live_next cfg). lia. Qed.

Lemma live_next_lt (cfg : CFG) : snd (round cfg) = false -> live (next cfg) < live cfg.
Proof.
  rewrite done_spec. intros Hd. apply settled_false in Hd.
  pose proof (live_next cfg). lia.
Qed.

Lemma cfg_defs_next (cfg : CFG) (r : Reg) :
  r ∈ cfg_defs (next cfg) -> live_reg r = true -> r ∈ cfg_defs cfg.
Proof.
  rewrite next_spec. intros Hr Hl. apply cfg_defs_phase4 in Hr.
  rewrite cfg_defs_zeroed in Hr.
  apply list_elem_of_fmap in Hr as (r0 & -> & Hr0).
  unfold zeroed in *. destruct (unused _ r0); [| done].
  by rewrite live_reg_Zero in Hl.
Qed.

Lemma cfg_uses_next (cfg : CFG) (r : Reg) :
  r ∈ cfg_uses (next cfg) -> r ∈ cfg_uses cfg.
Proof.
  rewrite next_spec. intros Hr. apply cfg_uses_phase4 in Hr.
  by rewrite cfg_uses_zeroed in Hr.
Qed.

Lemma Apply_loop_done (fuel : nat) (cfg : CFG) :
  snd (round cfg) = true -> Apply_loop (S fuel) cfg = Some (next cfg).
Proof.
  unfold next. simpl. destruct (round cfg) as [c d]; simpl. by intros ->.
Qed.

Lemma Apply_loop_again (fuel : nat) (cfg : CFG) :
  snd (round cfg) = false -> Apply_loop (S fuel) cfg = Apply_loop fuel (next cfg).
Proof.
  unfold next. simpl. destruct (round cfg) as [c d]; simpl. by intros ->.
Qed.

(** The loop leaves after some round [k + 1] with [k <= live cfg]: the
    first one that rewrites nothing. *)
Lemma Apply_loop_rounds (cfg : CFG) :
  exists k,
    k <= live cfg /\
    (forall j, j < k -> snd (round (Nat.iter j next cfg)) = false) /\
    snd (round (Nat.iter k next cfg)) = true /\
    (forall fuel, k < fuel -> Apply_loop fuel cfg = Some (Nat.iter (S k) next cfg)).
Proof.
  remember (live cfg) as n eqn:Hn.
  revert cfg Hn. induction n as [n IH] using lt_wf_ind. intros cfg Hn.
  destruct (snd (round cfg)) eqn:Hd.
  - exists 0. split; [lia |]. split; [intros j Hj; lia |]. split; [done |].
    intros [| fuel] Hf; [lia |]. by apply Apply_loop_done.
  - pose proof (live_next_lt cfg Hd) as Hlt.
    destruct (IH (live (next cfg)) ltac:(lia) (next cfg) eq_refl)
      as (k & Hk & Hbefore & Hlast & Hfuel).
    exists (S k). split; [lia |].
    split.
    { intros [| j] Hj; simpl; [done |].
      rewrite <- Nat.iter_succ, Nat.iter_succ_r. apply Hbefore. lia. }
    split.
    { rewrite Nat.iter_succ_r. done. }
    intros [| fuel] Hf; [lia |].
    rewrite Apply_loop_again by done.
    rewrite Hfuel by lia. by rewrite <- !Nat.iter_succ_r.
Qed.

(** C5: [TDCE.Apply] terminates on every graph.  In every round, each
    register that is declared afterwards and is not the zero sentinel
    was declared before, each register read afterwards was read before,
    the number of declared slots that are not the zero sentinel does not
    grow, and it shrinks when the round ends with [done] false, which
    happens exactly when phase 3 rewrote something.  The loop leaves at
    the end of the first round in which phase 3 rewrote nothing, after at
    most [live cfg] rounds before it. *)
Theorem Apply_terminates (cfg : CFG) :
  (forall c : CFG,
     (forall r, r ∈ cfg_defs (next c) -> live_reg r = true -> r ∈ cfg_defs c) /\
     (forall r, r ∈ cfg_uses (next c) -> r ∈ cfg_uses c) /\
     live (next c) <= live c /\
     (snd (round c) = false -> live (next c) < live c) /\
     (snd (round c) = true <-> fst (phase3 (phase2 c (phase1 c)) c true) = c)) /\
  exists k,
    k <= live cfg /\
    (forall j, j < k -> snd (round (Nat.iter j next cfg)) = false) /\
    snd (round (Nat.iter k next cfg)) = true /\
    (forall fuel, k < fuel -> Apply_loop fuel cfg = Some (Nat.iter (S k) next cfg)) /\
    Apply cfg = Some (Nat.iter (S k) next cfg).
Proof.
  split.
  - intros c.
    split; [apply cfg_defs_next |].
    split; [apply cfg_uses_next |].
    split; [apply live_next_le |].
    split; [apply live_next_lt |].
    rewrite done_spec, phase3_spec. simpl. apply zeroed_cfg_settled.
  - destruct (Apply_loop_rounds cfg) as (k & Hk & Hbefore & Hlast & Hfuel).
    exists k. repeat (split; [done |]).
    unfold Apply. apply Hfuel. lia.
Qed.

(** *** Compaction *)

Lemma existsb_live_false (rs : list Reg) :
  existsb live_reg rs = false <-> forall r, r ∈ rs -> Kind r = K_zero.
Proof.
  induction rs as [| r rs IH]; simpl.
  - split; [| done]. intros _ r Hr. by apply not_elem_of_nil in Hr.
  - rewrite orb_false_iff, IH. unfold live_reg.
    rewrite negb_false_iff, Nat.eqb_eq. split.
    + intros [Hr Hrs] r' Hr'. apply elem_of_cons in Hr' as [-> | Hr']; auto.
    + intros Hall. split; [apply Hall, list_elem_of_here |].
      intros r' Hr'. by apply Hall, list_elem_of_further.
Qed.

(** C3, as amended: in the compaction phase an instruction is dropped if
    and only if it declares at least one register and every register it
    declares is the zero sentinel, so an instruction without the
    capability or with an empty list is kept; a Phi node is dropped if
    and only if every register it declares is the zero sentinel, which
    includes the Phi node that declares none; the entries that are kept
    stay in their order; and the terminator is always kept. *)
Theorem phase4_block_spec (bb : BasicBlock) :
  Phi (phase4_block bb) = List.filter keep_phi (Phi bb) /\
  Ins (phase4_block bb) = List.filter keep_ins (Ins bb) /\
  Term (phase4_block bb) = Term bb /\
  (forall v, keep_phi v = false <->
     forall r, r ∈ Phi_Definitions v -> Kind r = K_zero) /\
  (forall v, keep_ins v = false <->
     exists rs, Ir_Definitions v = Some rs /\ rs <> [] /\
       forall r, r ∈ rs -> Kind r = K_zero) /\
  (forall v, v ∈ Phi (phase4_block bb) <->
     v ∈ Phi bb /\ exists r, r ∈ Phi_Definitions v /\ Kind r <> K_zero) /\
  (forall v, v ∈ Ins (phase4_block bb) <->
     v ∈ Ins bb /\
     (Ir_Definitions v = None \/ Ir_Definitions v = Some [] \/
      exists r, r ∈ node_defs v /\ Kind r <> K_zero)).
Proof.
  assert (Hphi : forall v, keep_phi v = false <->
     forall r, r ∈ Phi_Definitions v -> Kind r = K_zero).
  { intros v. apply existsb_live_false. }
  assert (Hins : forall v, keep_ins v = false <->
     exists rs, Ir_Definitions v = Some rs /\ rs <> [] /\
       forall r, r ∈ rs -> Kind r = K_zero).
  { intros v. unfold keep_ins. destruct (Ir_Definitions v) as [[| r rs] |].
    - split; [done |]. intros (rs & Heq & Hne & _). by injection Heq as <-.
    - rewrite existsb_live_false. split.
      + intros Hall. exists (r :: rs). done.
      + intros (rs' & Heq & _ & Hall). by injection Heq as <-.
    - split; [done |]. intros (rs & Heq & _). done. }
  assert (Hex : forall rs, existsb live_reg rs = true <->
     exists r, r ∈ rs /\ Kind r <> K_zero).
  { intros rs. rewrite existsb_exists. unfold live_reg.
    split; intros (r & Hr & Hk); exists r.
    - apply list_elem_of_In in Hr. rewrite negb_true_iff, Nat.eqb_neq in Hk. done.
    - split; [by apply list_elem_of_In |]. by rewrite negb_true_iff, Nat.eqb_neq. }
  rewrite phase4_block_filter. simpl.
  repeat (split; [done |]).
  split.
  - intros v. rewrite list_elem_of_In, List.filter_In, <- list_elem_of_In.
    unfold keep_phi. rewrite Hex. done.
  - intros v. rewrite list_elem_of_In, List.filter_In, <- list_elem_of_In.
    unfold keep_ins, node_defs. destruct (Ir_Definitions v) as [[| r rs] |]; simpl.
    + split; [intros [Hv _]; auto | tauto].
    + change (live_reg r || existsb live_reg rs) with (existsb live_reg (r :: rs)).
      rewrite Hex. split.
      * intros [Hv Hr]. auto.
      * intros [Hv [Hn | [Hn | Hr]]]; done.
    + split; [intros [Hv _]; auto | tauto].
Qed.

(** *** Graphs that phase 4 leaves alone

    When no entry of the input is droppable to begin with, the last
    round changes nothing at all, and the result has no unread
    definition left.  The graph [discarded_add] below shows what
    happens otherwise. *)

Lemma filter_all_true {A : Type} (keep : A -> bool) (l : list A) :
  (forall v, v ∈ l -> keep v = true) -> List.filter keep l = l.
Proof.
  induction l as [| x l IH]; intros Hk; simpl; [done |].
  rewrite Hk by apply list_elem_of_here.
  rewrite IH; [done |]. intros v Hv. apply Hk. by apply list_elem_of_further.
Qed.

Lemma phase4_compacted (cfg : CFG) : compacted cfg -> phase4 cfg = cfg.
Proof.
  intros Hc. unfold phase4. apply map_id_on. intros bb Hbb.
  destruct (Hc bb Hbb) as [Hphi Hins].
  rewrite phase4_block_filter.
  rewrite (filter_all_true keep_phi) by done.
  rewrite (filter_all_true keep_ins) by done.
  by destruct bb.
Qed.

Lemma compacted_phase4 (cfg : CFG) : compacted (phase4 cfg).
Proof.
  intros bb Hbb. unfold phase4 in Hbb.
  apply list_elem_of_fmap in Hbb as (bb0 & -> & _).
  rewrite phase4_block_filter. simpl.
  split; intros v Hv; apply list_elem_of_In, List.filter_In in Hv; tauto.
Qed.

Lemma compacted_next (cfg : CFG) : compacted (next cfg).
Proof. rewrite next_spec. apply compacted_phase4. Qed.

Lemma compacted_iter (k : nat) (cfg : CFG) :
  compacted cfg -> compacted (Nat.iter k next cfg).
Proof.
  intros Hc. destruct k as [| k]; simpl; [done | apply compacted_next].
Qed.

(** A round that rewrites nothing on a graph that phase 4 leaves alone
    returns the graph itself. *)
Lemma next_fixed (cfg : CFG) :
  compacted cfg -> snd (round cfg) = true -> next cfg = cfg.
Proof.
  intros Hc Hd. rewrite done_spec in Hd.
  rewrite next_spec.
  apply zeroed_cfg_settled in Hd. rewrite Hd. by apply phase4_compacted.
Qed.

(** In a graph on which a round rewrites nothing, every declared
    register that is not the zero sentinel is read somewhere. *)
Lemma settled_read (cfg : CFG) (r : Reg) :
  snd (round cfg) = true ->
  r ∈ cfg_defs cfg -> Kind r <> K_zero -> r ∈ cfg_uses cfg.
Proof.
  rewrite done_spec. unfold settled. rewrite forallb_forall.
  intros Hs Hr Hk.
  specialize (Hs r ltac:(by apply list_elem_of_In)).
  apply negb_true_iff in Hs. unfold unused in Hs.
  apply andb_false_iff in Hs as [Hs | Hs].
  - apply bool_decide_eq_false in Hs. rewrite elem_of_phase2 in Hs.
    destruct (decide (r ∈ cfg_uses cfg)) as [Hin | Hnin]; [done |].
    exfalso. apply Hs. done.
  - unfold live_reg in Hs. apply negb_false_iff, Nat.eqb_eq in Hs. done.
Qed.

Lemma round_eta (cfg : CFG) : round cfg = (next cfg, snd (round cfg)).
Proof. unfold next. by destruct (round cfg). Qed.

(** On such an input [Apply] is sound and a second [Apply] changes
    nothing. *)
Lemma Apply_compacted (cfg : CFG) :
  compacted cfg ->
  exists out,
    Apply cfg = Some out /\
    (forall r, r ∈ cfg_defs out -> Kind r <> K_zero -> r ∈ cfg_uses out) /\
    round out = (out, true) /\
    Apply out = Some out.
Proof.
  intros Hc.
  destruct (Apply_loop_rounds cfg) as (k & Hk & _ & Hlast & Hfuel).
  pose proof (compacted_iter k cfg Hc) as Hck.
  pose proof (next_fixed _ Hck Hlast) as Hfix.
  exists (Nat.iter k next cfg).
  split.
  { unfold Apply. rewrite Hfuel by lia. simpl. by rewrite Hfix. }
  split; [intros r; by apply settled_read |].
  split.
  { rewrite (round_eta (Nat.iter k next cfg)), Hfix, Hlast. done. }
  unfold Apply. rewrite Apply_loop_done by done. by rewrite Hfix.
Qed.

(** Whatever the input, the graph [Apply] returns has no droppable
    entry left. *)
Lemma Apply_output_compacted (cfg out : CFG) : Apply cfg = Some out -> compacted out.
Proof.
  destruct (Apply_loop_rounds cfg) as (k & Hk & _ & _ & Hfuel).
  unfold Apply. rewrite Hfuel by lia. intros Heq. injection Heq as <-.
  simpl. apply compacted_next.
Qed.

(** *** The dead set and the rewriting of phase 3 *)

(** X11: after phases 1 and 2 the working set holds exactly the
    registers that some Phi node, instruction or terminator declares and
    none reads, a register read by the construct that declares it
    included; so the test of phase 3 succeeds on a declared slot exactly
    when its register is read nowhere in the graph and is not of the
    zero kind. *)
Theorem dead_set_spec (cfg : CFG) (r : Reg) :
  (r ∈ phase1 cfg <-> r ∈ cfg_defs cfg) /\
  (r ∈ phase2 cfg (phase1 cfg) <-> r ∈ cfg_defs cfg /\ r ∉ cfg_uses cfg) /\
  (unused (phase2 cfg (phase1 cfg)) r = true <->
     r ∈ cfg_defs cfg /\ (r ∉ cfg_uses cfg) /\ Kind r <> K_zero).
Proof.
  split; [apply elem_of_phase1 |].
  split; [apply elem_of_phase2 |].
  unfold unused, live_reg.
  rewrite andb_true_iff, bool_decide_eq_true, elem_of_phase2.
  rewrite negb_true_iff, Nat.eqb_neq. tauto.
Qed.

(** X12: phase 3, run with any set [decl] and any value of [done],
    rewrites to [r.Zero()] exactly the declared slots whose register is
    in [decl] and not of the zero kind, and leaves every other slot, all
    usage lists and the number of blocks as they are; [done] comes out
    false if a slot was rewritten and unchanged otherwise. *)
Theorem phase3_effect (decl : gset Reg) (cfg : CFG) (done : bool) :
  cfg_defs (fst (phase3 decl cfg done))
    = map (fun r => if unused decl r then Zero r else r) (cfg_defs cfg) /\
  cfg_uses (fst (phase3 decl cfg done)) = cfg_uses cfg /\
  length (fst (phase3 decl cfg done)) = length cfg /\
  snd (phase3 decl cfg done)
    = done && forallb (fun r => negb (unused decl r)) (cfg_defs cfg).
Proof.
  rewrite phase3_spec. simpl.
  split; [apply cfg_defs_zeroed |].
  split; [apply cfg_uses_zeroed |].
  split; [apply length_map | done].
Qed.

(** *** What a round keeps *)

Lemma sublist_map_filter {A B : Type} (f : A -> B) (keep : A -> bool) (l : list A) :
  map f (List.filter keep l) `sublist_of` map f l.
Proof.
  induction l as [| x l IH]; simpl; [constructor |].
  destruct (keep x); simpl; by constructor.
Qed.

Lemma same_shape_refl (bb : BasicBlock) : same_shape bb bb.
Proof. unfold same_shape. repeat split; done. Qed.

Lemma same_shape_trans (bb1 bb2 bb3 : BasicBlock) :
  same_shape bb1 bb2 -> same_shape bb2 bb3 -> same_shape bb1 bb3.
Proof.
  intros (Hp & Hi & Hn & Hu & Hd) (Hp' & Hi' & Hn' & Hu' & Hd').
  unfold same_shape.
  split; [by transitivity (map Phi_Usages (Phi bb2)) |].
  split; [by transitivity (map (fun v => (Ir_name v, Ir_Usages v)) (Ins bb2)) |].
  split; [congruence |]. split; congruence.
Qed.

Lemma zeroed_node_shape (decl : gset Reg) (v : IrNode) :
  (Ir_name (zeroed_node decl v), Ir_Usages (zeroed_node decl v))
    = (Ir_name v, Ir_Usages v) /\
  length <$> Ir_Definitions (zeroed_node decl v) = length <$> Ir_Definitions v.
Proof.
  unfold zeroed_node. destruct v as [name [rs |] us]; simpl; [| done].
  by rewrite length_map.
Qed.

Lemma same_shape_round (decl : gset Reg) (bb : BasicBlock) :
  same_shape (phase4_block (zeroed_block decl bb)) bb.
Proof.
  rewrite phase4_block_filter. unfold same_shape, zeroed_block. simpl.
  pose proof (zeroed_node_shape decl (Term bb)) as [Hterm Hdefs].
  injection Hterm as Hname Huses.
  split; [| split; [| done]].
  - etransitivity; [apply sublist_map_filter |].
    rewrite map_map. simpl. done.
  - etransitivity; [apply sublist_map_filter |].
    rewrite map_map.
    rewrite (map_ext _ (fun v => (Ir_name v, Ir_Usages v)))
      by (intros v; apply zeroed_node_shape).
    done.
Qed.

Lemma same_shape_next (cfg : CFG) : Forall2 same_shape (next cfg) cfg.
Proof.
  rewrite next_spec. unfold phase4. rewrite map_map.
  generalize (phase2 cfg (phase1 cfg)). intros decl.
  induction cfg as [| bb cfg IH]; simpl; [constructor |].
  constructor; [apply same_shape_round | done].
Qed.

Lemma same_shape_iter (k : nat) (cfg : CFG) :
  Forall2 same_shape (Nat.iter k next cfg) cfg.
Proof.
  induction k as [| k IH]; simpl.
  - apply Forall_Forall2_diag, Forall_forall. intros bb _. apply same_shape_refl.
  - eapply Forall2_trans; [| apply same_shape_next | exact IH].
    apply same_shape_trans.
Qed.

Lemma cfg_uses_iter (k : nat) (cfg : CFG) (r : Reg) :
  r ∈ cfg_uses (Nat.iter k next cfg) -> r ∈ cfg_uses cfg.
Proof.
  induction k as [| k IH]; simpl; [done |].
  intros Hr. by apply IH, cfg_uses_next.
Qed.

(** What the loop returns is the graph after some number of rounds, the
    last of which rewrote nothing. *)
Lemma Apply_loop_iter (fuel : nat) (cfg out : CFG) :
  Apply_loop fuel cfg = Some out ->
  exists k,
    out = Nat.iter (S k) next cfg /\ snd (round (Nat.iter k next cfg)) = true.
Proof.
  revert cfg. induction fuel as [| fuel IH]; intros cfg Hrun; [done |].
  destruct (snd (round cfg)) eqn:Hd.
  - rewrite Apply_loop_done in Hrun by done. injection Hrun as <-.
    exists O. done.
  - rewrite Apply_loop_again in Hrun by done.
    destruct (IH _ Hrun) as (k & -> & Hlast).
    exists (S k). split.
    + by rewrite (Nat.iter_succ_r (S k)).
    + by rewrite Nat.iter_succ_r.
Qed.

(** X13: whatever [Apply] returns has the blocks of the input, in
    order; each block has kept its terminator, with its name and its
    usage list, and a sublist of its Phi nodes and of its instructions,
    in their order and with the names and usage lists they had; and
    every register read in the result was read in the input. *)
Theorem Apply_keeps_shape (cfg out : CFG) :
  Apply cfg = Some out ->
  Forall2 same_shape out cfg /\
  length out = length cfg /\
  (forall r, r ∈ cfg_uses out -> r ∈ cfg_uses cfg).
Proof.
  intros Hrun. apply Apply_loop_iter in Hrun as (k & -> & _).
  pose proof (same_shape_iter (S k) cfg) as Hshape.
  split; [done |].
  split; [by eapply Forall2_length |].
  apply cfg_uses_iter.
Qed.

(** *** Liveness *)

Lemma elem_of_concat_keep {A : Type} (keep : A -> bool) (f : A -> list Reg)
    (l : list A) (r : Reg) :
  (forall v, r ∈ f v -> keep v = true) ->
  r ∈ concat (map f l) -> r ∈ concat (map f (List.filter keep l)).
Proof.
  intros Hk. rewrite !elem_of_concat_map. intros (v & Hv & Hr).
  exists v. split; [| done].
  apply list_elem_of_In, List.filter_In. split; [by apply list_elem_of_In | auto].
Qed.

Lemma existsb_live_elem (rs : list Reg) (r : Reg) :
  r ∈ rs -> live_reg r = true -> existsb live_reg rs = true.
Proof.
  intros Hr Hl. apply existsb_exists. exists r.
  split; [by apply list_elem_of_In | done].
Qed.

(** Phase 4 keeps every entry that declares a register that is not the
    zero sentinel. *)
Lemma block_defs_phase4_live (bb : BasicBlock) (r : Reg) :
  r ∈ block_defs bb -> live_reg r = true -> r ∈ block_defs (phase4_block bb).
Proof.
  intros Hr Hl. rewrite phase4_block_filter. unfold block_defs in *. simpl.
  rewrite !elem_of_app in *.
  destruct Hr as [Hr | [Hr | Hr]]; [left | right; left | right; right]; [| | done].
  - apply elem_of_concat_keep; [| done].
    intros v Hv. unfold keep_phi. by apply (existsb_live_elem _ r).
  - apply elem_of_concat_keep; [| done].
    intros v Hv. unfold keep_ins, node_defs in *.
    destruct (Ir_Definitions v) as [[| r0 rs] |]; simpl in Hv; try done.
    by apply (existsb_live_elem (r0 :: rs) r).
Qed.

Lemma cfg_defs_next_read (cfg : CFG) (r : Reg) :
  r ∈ cfg_defs cfg -> live_reg r = true -> r ∈ cfg_uses cfg ->
  r ∈ cfg_defs (next cfg).
Proof.
  intros Hd Hl Hu. rewrite next_spec.
  set (decl := phase2 cfg (phase1 cfg)).
  assert (Hz : zeroed decl r = r).
  { unfold zeroed, unused.
    rewrite bool_decide_eq_false_2; [done |].
    unfold decl. rewrite elem_of_phase2. tauto. }
  unfold cfg_defs, phase4 in *. rewrite !map_map.
  apply elem_of_concat_map in Hd as (bb & Hbb & Hr).
  apply elem_of_concat_map. exists bb. split; [done |].
  apply block_defs_phase4_live; [| done].
  rewrite block_defs_zeroed, <- Hz. by apply list_elem_of_fmap_2.
Qed.

Lemma cfg_defs_iter_read (k : nat) (cfg : CFG) (r : Reg) :
  r ∈ cfg_defs cfg -> live_reg r = true -> r ∈ cfg_uses (Nat.iter k next cfg) ->
  r ∈ cfg_defs (Nat.iter k next cfg).
Proof.
  intros Hd Hl. induction k as [| k IH]; simpl; [done |].
  intros Hu. pose proof (cfg_uses_next _ _ Hu) as Hu'.
  apply cfg_defs_next_read; auto.
Qed.

(** X14: liveness is preserved.  A register that the input declares,
    that is not the zero sentinel, and that is still read somewhere in
    the graph [Apply] returns (by the construct that declares it, for
    one) is still declared in that graph: its slot was never rewritten
    and its definition never dropped. *)
Theorem Apply_keeps_read_definitions (cfg out : CFG) (r : Reg) :
  Apply cfg = Some out ->
  r ∈ cfg_defs cfg -> Kind r <> K_zero -> r ∈ cfg_uses out ->
  r ∈ cfg_defs out.
Proof.
  intros Hrun Hd Hk Hu. apply Apply_loop_iter in Hrun as (k & -> & _).
  apply cfg_defs_iter_read; [done | | done].
  unfold live_reg. by rewrite negb_true_iff, Nat.eqb_neq.
Qed.

Lemma existsb_live_true (rs : list Reg) :
  existsb live_reg rs = true <-> exists r, r ∈ rs /\ Kind r <> K_zero.
Proof.
  rewrite existsb_exists. unfold live_reg.
  split; intros (r & Hr & Hk); exists r.
  - apply list_elem_of_In in Hr. by rewrite negb_true_iff, Nat.eqb_neq in Hk.
  - split; [by apply list_elem_of_In |]. by rewrite negb_true_iff, Nat.eqb_neq.
Qed.

Lemma phase4_block_elem (bb : BasicBlock) :
  (forall v, v ∈ Phi (phase4_block bb) ->
     v ∈ Phi bb /\ exists r, r ∈ Phi_Definitions v /\ Kind r <> K_zero) /\
  (forall v, v ∈ Ins (phase4_block bb) ->
     v ∈ Ins bb /\
     (Ir_Definitions v = None \/ Ir_Definitions v = Some [] \/
      exists r, r ∈ node_defs v /\ Kind r <> K_zero)).
Proof.
  rewrite phase4_block_filter. simpl.
  split; intros v Hv; apply list_elem_of_In, List.filter_In in Hv as [Hv Hk];
    (split; [by apply list_elem_of_In |]).
  - by apply existsb_live_true.
  - unfold keep_ins, node_defs in *.
    destruct (Ir_Definitions v) as [[| r rs] |]; simpl; auto.
    right; right. by apply (existsb_live_true (r :: rs)).
Qed.

(** X15: dead entries are gone.  In the graph [Apply] returns, every
    Phi node declares a register that is not the zero sentinel, and
    every instruction has no [Definitions()], or an empty one, or
    declares a register that is not the zero sentinel. *)
Theorem Apply_leaves_no_dead_entry (cfg out : CFG) :
  Apply cfg = Some out ->
  forall bb, bb ∈ out ->
    (forall v, v ∈ Phi bb -> exists r, r ∈ Phi_Definitions v /\ Kind r <> K_zero) /\
    (forall v, v ∈ Ins bb ->
       Ir_Definitions v = None \/ Ir_Definitions v = Some [] \/
       exists r, r ∈ node_defs v /\ Kind r <> K_zero).
Proof.
  intros Hrun bb Hbb. apply Apply_loop_iter in Hrun as (k & -> & _).
  simpl in Hbb. rewrite next_spec in Hbb. unfold phase4 in Hbb.
  apply list_elem_of_fmap in Hbb as (bb0 & -> & _).
  destruct (phase4_block_elem bb0) as [Hphi Hins].
  split; intros v Hv; [by apply Hphi in Hv as [_ Hv] | by apply Hins in Hv as [_ Hv]].
Qed.

(** X16: on a graph in which no Phi node and no instruction is droppable
    to begin with, [Apply] returns a graph in which every declared
    register that is not the zero sentinel is read somewhere, and on
    which a further round, and so a further [Apply], changes nothing. *)
Theorem Apply_sound_on_compacted (cfg : CFG) :
  compacted cfg ->
  exists out,
    Apply cfg = Some out /\
    (forall r, r ∈ cfg_defs out -> Kind r <> K_zero -> r ∈ cfg_uses out) /\
    round out = (out, true) /\
    Apply out = Some out.
Proof. apply Apply_compacted. Qed.

(** X17: two applications reach a fixed point.  On any graph [Apply]
    returns, [Apply] on its result returns, and the second result is one
    on which [Apply] changes nothing and in which every declared register
    that is not the zero sentinel is read somewhere. *)
Theorem Apply_twice_stable (cfg : CFG) :
  exists out1 out2,
    Apply cfg = Some out1 /\
    Apply out1 = Some out2 /\
    Apply out2 = Some out2 /\
    round out2 = (out2, true) /\
    (forall r, r ∈ cfg_defs out2 -> Kind r <> K_zero -> r ∈ cfg_uses out2).
Proof.
  destruct (Apply_loop_rounds cfg) as (k & Hk & _ & _ & Hfuel).
  assert (H1 : Apply cfg = Some (Nat.iter (S k) next cfg))
    by (unfold Apply; apply Hfuel; lia).
  pose proof (Apply_output_compacted _ _ H1) as Hc.
  destruct (Apply_compacted _ Hc) as (out2 & H2 & Hsound & Hround & H3).
  exists (Nat.iter (S k) next cfg), out2. auto.
Qed.

End TDCE.

(** *** Concrete graphs *)

(** Modelled from the spec: a register file to run the pass on.
    Registers are numbers, register 0 is the zero sentinel and the only
    register of kind [ExK_zero]. *)
Definition ExK_zero : nat := 0.
Definition ExKind (r : nat) : nat := if r =? 0 then ExK_zero else 1.
Definition ExZero (r : nat) : nat := 0.

Lemma ExZero_Kind (r : nat) : ExKind (ExZero r) = ExK_zero.
Proof. reflexivity. Qed.

Definition ExApply (cfg : @CFG nat) : option (@CFG nat) := Apply ExKind ExK_zero ExZero cfg.

Definition i_const (r : nat) : @IrNode nat := mkIr "const" (Some [r]) None.
Definition i_add (r x y : nat) : @IrNode nat := mkIr "add" (Some [r]) (Some [x; y]).
Definition i_store (x : nat) : @IrNode nat := mkIr "store" None (Some [x]).
Definition i_return (x : nat) : @IrNode nat := mkIr "return" None (Some [x]).
Definition i_halt : @IrNode nat := mkIr "halt" None None.

(** Scenario A: [r1 = const 5; r2 = add r1, r1; return r1]. *)
Definition scenario_a : @CFG nat := [mkBB [] [i_const 1; i_add 2 1 1] (i_return 1)].

Example scenario_a_once :
  ExApply scenario_a = Some [mkBB [] [i_const 1] (i_return 1)].
Proof. vm_compute. reflexivity. Qed.

Example scenario_a_twice :
  ExApply [mkBB [] [i_const 1] (i_return 1)] = Some [mkBB [] [i_const 1] (i_return 1)].
Proof. vm_compute. reflexivity. Qed.

(** Scenario B: a Phi node nobody reads goes away, one that feeds the
    terminator stays. *)
Example scenario_b :
  ExApply [mkBB [mkPhi [3] [1; 2]; mkPhi [4] [1; 2]] [] (i_return 4)]
  = Some [mkBB [mkPhi [4] [1; 2]] [] (i_return 4)].
Proof. vm_compute. reflexivity. Qed.

(** A chain of definitions takes one round per link. *)
Example chain_three_rounds :
  ExApply [mkBB [] [i_const 1; i_add 2 1 1; i_add 3 2 2] i_halt]
  = Some [mkBB [] [] i_halt].
Proof. vm_compute. reflexivity. Qed.

(** [r1 = const; _ = add r1, r1; halt]: the result of the addition is
    written to the zero register to begin with. *)
Definition discarded_add : @CFG nat := [mkBB [] [i_const 1; i_add 0 1 1] i_halt].

(** [Apply_terminates] on Scenario A: one round rewrites, the second
    does not. *)
Lemma Apply_terminates_witness :
  (forall r, ExKind (ExZero r) = ExK_zero) /\
  exists k,
    k <= live ExKind ExK_zero scenario_a /\
    snd (round ExKind ExK_zero ExZero
           (Nat.iter k (next ExKind ExK_zero ExZero) scenario_a)) = true /\
    ExApply scenario_a = Some (Nat.iter (S k) (next ExKind ExK_zero ExZero) scenario_a).
Proof.
  split; [exact ExZero_Kind |].
  destruct (Apply_terminates ExKind ExK_zero ExZero ExZero_Kind scenario_a)
    as (_ & k & Hk & _ & Hlast & _ & Happly).
  exists k. split; [exact Hk |]. split; [exact Hlast | exact Happly].
Defined.

(** C3 as stated fails for a Phi node that declares no register: the
    claim keeps it, phase 4 drops it. *)
Lemma phase4_drops_empty_phi :
  Phi_Definitions (mkPhi [] [1; 2]) = [] /\
  Phi (phase4_block ExKind ExK_zero (mkBB [mkPhi [] [1; 2]] [] (i_return 1))) = [].
Proof. split; reflexivity. Qed.

(** C2 at [discarded_add]: the only round rewrites nothing and drops the
    addition, so [Apply] returns a graph that still declares [r1], a
    register that is not the zero sentinel and that nothing reads. *)
Theorem Apply_leaves_unread_definition :
  ExApply discarded_add = Some [mkBB [] [i_const 1] i_halt] /\
  1 ∈ cfg_defs [mkBB [] [i_const 1] i_halt] /\
  ExKind 1 <> ExK_zero /\
  cfg_uses [mkBB [] [i_const 1] i_halt] = [].
Proof.
  split; [vm_compute; reflexivity |].
  split; [apply list_elem_of_here |].
  split; [discriminate | reflexivity].
Qed.

(** C4 at [discarded_add]: a second [Apply] on the output of the first
    rewrites [r1] to the zero register and drops its definition. *)
Theorem Apply_twice_rewrites :
  ExApply discarded_add = Some [mkBB [] [i_const 1] i_halt] /\
  round ExKind ExK_zero ExZero [mkBB [] [i_const 1] i_halt]
    = ([mkBB [] [] i_halt], false) /\
  ExApply [mkBB [] [i_const 1] i_halt] = Some [mkBB [] [] i_halt].
Proof.
  split; [vm_compute; reflexivity |].
  split; vm_compute; reflexivity.
Qed.

(** [Apply_keeps_shape] on Scenario A. *)
Lemma Apply_keeps_shape_witness :
  ExApply scenario_a = Some [mkBB [] [i_const 1] (i_return 1)] /\
  Forall2 same_shape [mkBB [] [i_const 1] (i_return 1)] scenario_a /\
  length [mkBB [] [i_const 1] (i_return 1)] = length scenario_a /\
  (forall r, r ∈ cfg_uses [mkBB [] [i_const 1] (i_return 1)] ->
     r ∈ cfg_uses scenario_a).
Proof.
  split; [exact scenario_a_once |].
  exact (Apply_keeps_shape ExKind ExK_zero ExZero scenario_a
           [mkBB [] [i_const 1] (i_return 1)] scenario_a_once).
Defined.

(** [Apply_keeps_read_definitions] for [r1] of Scenario A, which the
    terminator reads. *)
Lemma Apply_keeps_read_definitions_witness :
  ExApply scenario_a = Some [mkBB [] [i_const 1] (i_return 1)] /\
  1 ∈ cfg_defs scenario_a /\
  ExKind 1 <> ExK_zero /\
  1 ∈ cfg_uses [mkBB [] [i_const 1] (i_return 1)] /\
  1 ∈ cfg_defs [mkBB [] [i_const 1] (i_return 1)].
Proof.
  assert (Hd : 1 ∈ cfg_defs scenario_a) by apply list_elem_of_here.
  assert (Hk : ExKind 1 <> ExK_zero) by discriminate.
  assert (Hu : 1 ∈ cfg_uses [mkBB [] [i_const 1] (i_return 1)])
    by apply list_elem_of_here.
  split; [exact scenario_a_once |].
  split; [exact Hd |]. split; [exact Hk |]. split; [exact Hu |].
  exact (Apply_keeps_read_definitions ExKind ExK_zero ExZero scenario_a
           [mkBB [] [i_const 1] (i_return 1)] 1 scenario_a_once Hd Hk Hu).
Defined.

(** [Apply_leaves_no_dead_entry] on the graph with the discarded
    addition. *)
Lemma Apply_leaves_no_dead_entry_witness :
  ExApply discarded_add = Some [mkBB [] [i_const 1] i_halt] /\
  forall bb, bb ∈ [mkBB [] [i_const 1] i_halt] ->
    (forall v, v ∈ Phi bb -> exists r, r ∈ Phi_Definitions v /\ ExKind r <> ExK_zero) /\
    (forall v, v ∈ Ins bb ->
       Ir_Definitions v = None \/ Ir_Definitions v = Some [] \/
       exists r, r ∈ node_defs v /\ ExKind r <> ExK_zero).
Proof.
  assert (Hrun : ExApply discarded_add = Some [mkBB [] [i_const 1] i_halt])
    by (vm_compute; reflexivity).
  split; [exact Hrun |].
  exact (Apply_leaves_no_dead_entry ExKind ExK_zero ExZero discarded_add
           [mkBB [] [i_const 1] i_halt] Hrun).
Defined.

Lemma scenario_a_compacted : compacted ExKind ExK_zero scenario_a.
Proof.
  intros bb Hbb. apply list_elem_of_singleton in Hbb as ->. simpl.
  split; intros v Hv.
  - by apply elem_of_nil in Hv.
  - repeat (apply elem_of_cons in Hv as [-> | Hv]); try reflexivity.
    by apply elem_of_nil in Hv.
Qed.

(** [Apply_sound_on_compacted] on Scenario A. *)
Lemma Apply_sound_on_compacted_witness :
  (forall r, ExKind (ExZero r) = ExK_zero) /\
  compacted ExKind ExK_zero scenario_a /\
  exists out,
    ExApply scenario_a = Some out /\
    (forall r, r ∈ cfg_defs out -> ExKind r <> ExK_zero -> r ∈ cfg_uses out) /\
    round ExKind ExK_zero ExZero out = (out, true) /\
    ExApply out = Some out.
Proof.
  split; [exact ExZero_Kind |].
  split; [exact scenario_a_compacted |].
  exact (Apply_sound_on_compacted ExKind ExK_zero ExZero ExZero_Kind scenario_a
           scenario_a_compacted).
Defined.

(** [Apply_twice_stable] on the graph with the discarded addition. *)
Lemma Apply_twice_stable_witness :
  (forall r, ExKind (ExZero r) = ExK_zero) /\
  exists out1 out2,
    ExApply discarded_add = Some out1 /\
    ExApply out1 = Some out2 /\
    ExApply out2 = Some out2 /\
    round ExKind ExK_zero ExZero out2 = (out2, true) /\
    (forall r, r ∈ cfg_defs out2 -> ExKind r <> ExK_zero -> r ∈ cfg_uses out2).
Proof.
  split; [exact ExZero_Kind |].
  exact (Apply_twice_stable ExKind ExK_zero ExZero ExZero_Kind discarded_add).
Defined.

End SSA.

(** ** Link and SetLinker *)

Module EncoderPkg.

Section Link.

(** Modelled from the spec: [atm.Program], [Encoder] and the built-in
    fallback [link_emu] are not part of the source at hand.  Programs and
    encoders are opaque; [link_emu] maps a program to its
    interpreter-backed encoder. *)
Variable Program : Type.
Variable Encoder : Type.
Variable link_emu : Program -> Encoder.

(** [type Linker interface { Link(p atm.Program) Encoder }].  A value of
    the interface type is [nil] ([None]) or carries an implementation of
    [Link], taken to return an encoder that depends on the program
    only. *)
Record LinkerImpl : Type := mkLinker { Linker_Link : Program -> Encoder }.

Definition Linker : Type := option LinkerImpl.

(** The package-level variable [linker]; its zero value is [nil]. *)
Record globals : Type := mkGlobals { linker : Linker }.

Definition at_start : globals := {| linker := None |}.

(** [func Link(p atm.Program) Encoder]: the encoder returned and the
    globals afterwards. *)
Definition Link (p : Program) (g : globals) : Encoder * globals :=
  match linker g with
  | None => (link_emu p, g)
  | Some l => (Linker_Link l p, g)
  end.

(** [func SetLinker(v Linker)] *)
Definition SetLinker (v : Linker) (g : globals) : unit * globals :=
  (tt, {| linker := v |}).

(** Calls of the two functions, one after the other. *)
Inductive call : Type :=
| CallLink (p : Program)
| CallSetLinker (v : Linker).

(** The encoders the [Link] calls of [cs] return, in order, and the
    globals at the end. *)
Fixpoint run (cs : list call) (g : globals) : list Encoder * globals :=
  match cs with
  | [] => ([], g)
  | CallLink p :: cs' =>
      let '(e, g) := Link p g in
      let '(es, g) := run cs' g in
      (e :: es, g)
  | CallSetLinker v :: cs' =>
      let '(_, g) := SetLinker v g in
      run cs' g
  end.

(** The argument of the most recent [SetLinker] call, looking back from
    the latest call ([earlier] lists the calls made so far, latest
    first); [v0] when there was none. *)
Fixpoint most_recent (earlier : list call) (v0 : Linker) : Linker :=
  match earlier with
  | [] => v0
  | CallSetLinker v :: _ => v
  | CallLink _ :: earlier' => most_recent earlier' v0
  end.

(** What [Link] is to return when the linker in force is [v]. *)
Definition answer (v : Linker) (p : Program) : Encoder :=
  match v with
  | None => link_emu p
  | Some l => Linker_Link l p
  end.

(** The number of [Link] calls in [cs]. *)
Fixpoint links (cs : list call) : nat :=
  match cs with
  | [] => O
  | CallLink _ :: cs' => S (links cs')
  | CallSetLinker _ :: cs' => links cs'
  end.

Lemma run_app (cs cs' : list call) (g : globals) :
  run (cs ++ cs') g
  = (fst (run cs g) ++ fst (run cs' (snd (run cs g))), snd (run cs' (snd (run cs g)))).
Proof.
  revert g. induction cs as [| [p | v] cs IH]; intros g; simpl.
  - by destruct (run cs' g).
  - unfold Link. destruct (linker g); rewrite IH; by destruct (run cs g).
  - apply IH.
Qed.

Lemma most_recent_snoc (earlier : list call) (c : call) (v0 : Linker) :
  most_recent (earlier ++ [c]) v0
  = most_recent earlier (match c with CallSetLinker v => v | CallLink _ => v0 end).
Proof.
  induction earlier as [| [p | v] earlier IH]; simpl.
  - by destruct c.
  - exact IH.
  - done.
Qed.

(** The global holds the argument of the most recent [SetLinker]. *)
Lemma linker_run (cs : list call) (g : globals) :
  linker (snd (run cs g)) = most_recent (rev cs) (linker g).
Proof.
  revert g. induction cs as [| [p | v] cs IH]; intros g; simpl.
  - done.
  - rewrite most_recent_snoc. unfold Link.
    destruct (linker g) eqn:Hg; specialize (IH g); destruct (run cs g); simpl in *;
      by rewrite IH, Hg.
  - rewrite most_recent_snoc. apply IH.
Qed.

Lemma length_run (cs : list call) (g : globals) : length (fst (run cs g)) = links cs.
Proof.
  revert g. induction cs as [| [p | v] cs IH]; intros g; simpl.
  - done.
  - unfold Link. destruct (linker g); specialize (IH g); destruct (run cs g);
      simpl in *; by rewrite IH.
  - apply IH.
Qed.

Lemma Link_answer (p : Program) (g : globals) : Link p g = (answer (linker g) p, g).
Proof. unfold Link, answer. by destruct (linker g). Qed.

(** C9: [Link(p)] returns [linker.Link(p)] of the installed linker when
    one is installed, and the encoder of [link_emu(p)] otherwise: when
    the global is [nil], as it is at process start.  It leaves the
    installed linker as it is, so right after [SetLinker(l)] it returns
    [l.Link(p)]. *)
Theorem Link_spec (p : Program) (g : globals) :
  (forall l, linker g = Some l -> Link p g = (Linker_Link l p, g)) /\
  (linker g = None -> Link p g = (link_emu p, g)) /\
  Link p at_start = (link_emu p, at_start) /\
  (forall l, fst (Link p (snd (SetLinker (Some l) g))) = Linker_Link l p).
Proof.
  split; [| split; [| split]].
  - intros l Hl. unfold Link. by rewrite Hl.
  - intros Hl. unfold Link. by rewrite Hl.
  - reflexivity.
  - intros l. reflexivity.
Qed.

(** C10: any sequence of [SetLinker] and [Link] calls runs to its end,
    whatever the arguments, [nil] included.  Every [Link(p)] call in it
    returns what the argument [v] of the most recent [SetLinker] call
    before it dictates (the global's initial value when there was none):
    [v.Link(p)] when [v] is not [nil], the interpreter fallback
    [link_emu(p)] when it is; so [SetLinker(nil)] restores the
    fallback. *)
Theorem SetLinker_most_recent (g : globals) :
  (forall (before after : list call) (p : Program),
     fst (run (before ++ CallLink p :: after) g) !! links before
     = Some (answer (most_recent (rev before) (linker g)) p)) /\
  (forall (v : Linker) (p : Program),
     fst (Link p (snd (SetLinker v g))) = answer v p) /\
  (forall (v : Linker) (p : Program),
     (exists l, fst (Link p (snd (SetLinker v g))) = Linker_Link l p /\ v = Some l)
     \/ (fst (Link p (snd (SetLinker v g))) = link_emu p /\ v = None)) /\
  (forall (cs : list call) (p : Program),
     fst (Link p (snd (SetLinker None (snd (run cs g))))) = link_emu p).
Proof.
  split; [| split; [| split]].
  - intros before after p.
    rewrite run_app. simpl.
    rewrite lookup_app_r by (rewrite length_run; lia).
    rewrite length_run, Nat.sub_diag.
    rewrite Link_answer, linker_run.
    by destruct (run after _).
  - intros v p. by rewrite Link_answer.
  - intros [l |] p; [left; exists l | right]; done.
  - intros cs p. reflexivity.
Qed.

End Link.

End EncoderPkg.
